(** * Live shock-arbitrage simulator: a shallow embedding of
    [live_shock_arb_sim.py] and the properties of its stake solver,
    opportunity detector, order coordinator and trade ledger.

    Floating-point numbers of the script are modelled as exact rationals
    ([Q]); every equation on [Q] below is an equation of rational
    arithmetic, which the program's binary64 results match up to
    rounding.  Where an answer turns on a comparison of rounded numbers
    (what the detector reports), the detector is embedded a second time
    with binary64 arithmetic, in [Binary64].
    A Python exception is an explicit [Raise] result.  Randomness and the
    clock are inputs of the model: a random draw or a clock reading is an
    argument of the step that consumes it. *)

From Stdlib Require Import ZArith QArith Qfield Lqa Lia Floats.
From stdpp Require Import base gmap strings list.

Open Scope Q_scope.

(** ** Exceptions and fallible results *)

Inductive exn := ZeroDivisionError | KeyError.

Inductive result (A : Type) :=
| Ok (a : A)
| Raise (e : exn).
Arguments Ok {A} a.
Arguments Raise {A} e.

Definition rbind {A B} (r : result A) (k : A -> result B) : result B :=
  match r with
  | Ok a => k a
  | Raise e => Raise e
  end.

Notation "x <-! r ; k" := (rbind r (fun x => k))
  (at level 20, r at level 100, k at level 200, only parsing).

(** Python's [a / b] on floats: raises [ZeroDivisionError] when [b] is zero. *)
Definition fdiv (a b : Q) : result Q :=
  if Qeq_bool b 0 then Raise ZeroDivisionError else Ok (a / b).

(** Python's [a < b] on numbers. *)
Definition Qltb (a b : Q) : bool := negb (Qle_bool b a).

(** ** Configuration (the module-level constants of the script) *)

Record Config := {
  TOTAL_OUTLAY : Q;
  MIN_ARBITRAGE_EDGE : Q;
  MAX_CONCURRENT : Z
}.

Definition default_config : Config :=
  {| TOTAL_OUTLAY := 200; MIN_ARBITRAGE_EDGE := 0.005; MAX_CONCURRENT := 2 |}.

Definition BOOK_REJECT_PROB (name : string) : result Q :=
  if String.eqb name "BookA" then Ok 0.06
  else if String.eqb name "BookB" then Ok 0.08
  else Raise KeyError.

Definition BOOK_LATENCY_MS (name : string) : result (Z * Z) :=
  if String.eqb name "BookA" then Ok (80, 180)%Z
  else if String.eqb name "BookB" then Ok (90, 220)%Z
  else Raise KeyError.

(** ** Utilities *)

Definition imp_prob_from_dec (o : Q) : result Q := fdiv 1 o.

(** [solve_equalized_stakes oA oB total] returns [(SA, SB, locked)]. *)
Definition solve_equalized_stakes (oA oB total : Q) : result (Q * Q * Q) :=
  SA <-! fdiv (total * oB) (oA + oB);
  let SB := total - SA in
  let locked := SA * (oA - 1) - SB in
  Ok (SA, SB, locked).

(** ** Models *)

Record Quote := {
  book : string;
  event_id : string;
  side : string;
  decimal : Q;
  ts_ms : Z
}.

Record Ticket := {
  ticket_book : string;
  ticket_event_id : string;
  ticket_side : string;
  stake : Q;
  decimal_odds : Q;
  accepted : bool;
  ticket_ts_ms : Z;
  note : string
}.

Record Trade := {
  trade_event_id : string;
  A_book : string;
  B_book : string;
  stake_A : Q;
  stake_B : Q;
  oA : Q;
  oB : Q;
  profit_locked : Q;
  roi : Q;
  trade_ts_ms : Z
}.

(** ** The feed's price floor

    Every decimal price that [ShockFeed._emit_shock] publishes is
    [max(1.05, x)] for some product [x] of a fair price and a noise factor. *)

Definition floor_price (x : Q) : Q := if Qle_bool 1.05 x then x else 1.05.

Definition feed_quote (bk ev sd : string) (x : Q) (ts : Z) : Quote :=
  {| book := bk; event_id := ev; side := sd; decimal := floor_price x; ts_ms := ts |}.

(** ** The execution venue (MockBook)

    [place] first draws a latency and sleeps, then draws a uniform number
    [u] and rejects when [u < BOOK_REJECT_PROB[name]].  The two halves are
    the two sides of the suspension. *)

Definition place_begin (name : string) : result (Z * Z) := BOOK_LATENCY_MS name.

Definition place_resolve (name ev sd : string) (stk odds : Q) (u : Q) (now : Z)
  : result Ticket :=
  p <-! BOOK_REJECT_PROB name;
  if Qltb u p
  then Ok {| ticket_book := name; ticket_event_id := ev; ticket_side := sd;
             stake := stk; decimal_odds := odds; accepted := false;
             ticket_ts_ms := now; note := "rejected" |}
  else Ok {| ticket_book := name; ticket_event_id := ev; ticket_side := sd;
             stake := stk; decimal_odds := odds; accepted := true;
             ticket_ts_ms := now; note := "" |}.

(** The bot's [books] dictionary: only the two venues are registered. *)
Definition books (name : string) : result string :=
  if String.eqb name "BookA" then Ok "BookA"%string
  else if String.eqb name "BookB" then Ok "BookB"%string
  else Raise KeyError.

(** ** The bot *)

Record Bot := {
  quotes : gmap (string * string) Quote;
  open_trades : Z;
  trades : list Trade
}.

Definition new_bot : Bot := {| quotes := ∅; open_trades := 0; trades := [] |}.

Definition on_quotes (b : Bot) (qs : list Quote) : Bot :=
  {| quotes := foldl (fun m q => <[(book q, side q) := q]> m) (quotes b) qs;
     open_trades := open_trades b;
     trades := trades b |}.

(** An opportunity is the tuple [(b1, b2, o1, o2)]. *)
Definition Opp : Type := string * string * Q * Q.

Definition Combo : Type := (string * string) * (string * string).

Definition combos : list Combo :=
  [ (("BookA", "A"), ("BookB", "B"));
    (("BookB", "A"), ("BookA", "B")) ]%string.

(** The body of the [for] loop of [find_opportunity], with the loop
    variables [best] and [best_edge] as accumulators. *)
Fixpoint find_loop (qm : gmap (string * string) Quote) (cs : list Combo)
    (best : option Opp) (best_edge : Q) : result (option Opp * Q) :=
  match cs with
  | [] => Ok (best, best_edge)
  | ((b1, s1), (b2, s2)) :: cs' =>
      match qm !! (b1, s1), qm !! (b2, s2) with
      | Some q1, Some q2 =>
          p1 <-! imp_prob_from_dec (decimal q1);
          p2 <-! imp_prob_from_dec (decimal q2);
          let p_sum := p1 + p2 in
          let edge := 1 - p_sum in
          if Qltb best_edge edge
          then find_loop qm cs' (Some (b1, b2, decimal q1, decimal q2)) edge
          else find_loop qm cs' best best_edge
      | _, _ => find_loop qm cs' best best_edge
      end
  end.

Definition find_opportunity_in (cfg : Config) (cs : list Combo)
    (qm : gmap (string * string) Quote) : result (option Opp) :=
  r <-! find_loop qm cs None 0;
  let '(best, best_edge) := r in
  match best with
  | Some o => if Qle_bool (MIN_ARBITRAGE_EDGE cfg) best_edge then Ok (Some o) else Ok None
  | None => Ok None
  end.

Definition find_opportunity (cfg : Config) (b : Bot) : result (option Opp) :=
  find_opportunity_in cfg combos (quotes b).

(** ** The order coordinator: [try_trade] as a coroutine

    [try_trade] suspends twice, once in each [await ... place(...)].  A
    task is the state of one call: where it is suspended and the local
    variables it holds there. *)

Record Locals := {
  l_event_id : string;
  l_bA : string;
  l_bB : string;
  l_oA : Q;
  l_oB : Q;
  l_SA : Q;
  l_SB : Q;
  l_locked : Q;
  l_roi : Q
}.

Inductive Task :=
| AwaitLeg1 (l : Locals)                 (* inside [t1 = await ...place(...)] *)
| AwaitLeg2 (l : Locals) (t1 : Ticket)   (* inside [t2 = await ...place(...)] *)
| Returned
| Raised (e : exn).

Inductive Leg := LegA | LegB.

(** What a step does, in program order. *)
Inductive Obs :=
| Opened (i : nat)                             (* [self.open_trades += 1] *)
| PlaceBegin (i : nat) (leg : Leg)             (* a [place] call starts *)
| PlaceResolve (i : nat) (leg : Leg) (acc : bool)  (* a [place] call returns its ticket *)
| Closed (i : nat)                             (* [self.open_trades -= 1] *)
| Appended (i : nat).                          (* [self.trades.append(tr)] *)

Definition set_open (b : Bot) (n : Z) : Bot :=
  {| quotes := quotes b; open_trades := n; trades := trades b |}.

Definition append_trade (b : Bot) (tr : Trade) : Bot :=
  {| quotes := quotes b; open_trades := open_trades b; trades := trades b ++ [tr] |}.

(** [self.books[name].place(...)] up to its [asyncio.sleep]. *)
Definition call_place (name : string) : result string :=
  nm <-! books name;
  _ <-! place_begin nm;
  Ok nm.

(** [try_trade] from its entry to the first suspension (or to its return). *)
Definition try_trade_start (cfg : Config) (b : Bot) (i : nat) (ev : string)
  : Bot * Task * list Obs :=
  if (MAX_CONCURRENT cfg <=? open_trades b)%Z then (b, Returned, [])
  else
    match find_opportunity cfg b with
    | Raise e => (b, Raised e, [])
    | Ok None => (b, Returned, [])
    | Ok (Some (bA, bB, o_A, o_B)) =>
        match solve_equalized_stakes o_A o_B (TOTAL_OUTLAY cfg) with
        | Raise e => (b, Raised e, [])
        | Ok (SA, SB, locked) =>
            match fdiv locked (TOTAL_OUTLAY cfg) with
            | Raise e => (b, Raised e, [])
            | Ok r =>
                let b' := set_open b (open_trades b + 1)%Z in
                match call_place bA with
                | Raise e => (b', Raised e, [Opened i])
                | Ok _ =>
                    (b',
                     AwaitLeg1 {| l_event_id := ev; l_bA := bA; l_bB := bB;
                                  l_oA := o_A; l_oB := o_B; l_SA := SA; l_SB := SB;
                                  l_locked := locked; l_roi := r |},
                     [Opened i; PlaceBegin i LegA])
                end
            end
        end
    end.

(** The first [await] returns (random draw [u], clock [now]); the call
    of the second [place] follows. *)
Definition try_trade_leg1 (b : Bot) (i : nat) (l : Locals) (u : Q) (now : Z)
  : Bot * Task * list Obs :=
  match (nm <-! books (l_bA l);
         place_resolve nm (l_event_id l) "A" (l_SA l) (l_oA l) u now) with
  | Raise e => (b, Raised e, [])
  | Ok t1 =>
      match call_place (l_bB l) with
      | Raise e => (b, Raised e, [PlaceResolve i LegA (accepted t1)])
      | Ok _ => (b, AwaitLeg2 l t1, [PlaceResolve i LegA (accepted t1); PlaceBegin i LegB])
      end
  end.

(** The second [await] returns (random draw [u], clock [now]); [now']
    is the clock reading of the [Trade]. *)
Definition try_trade_leg2 (b : Bot) (i : nat) (l : Locals) (t1 : Ticket)
    (u : Q) (now now' : Z) : Bot * Task * list Obs :=
  match (nm <-! books (l_bB l);
         place_resolve nm (l_event_id l) "B" (l_SB l) (l_oB l) u now) with
  | Raise e => (b, Raised e, [])
  | Ok t2 =>
      let b' := set_open b (open_trades b - 1)%Z in
      if negb (accepted t1 && accepted t2)
      then (b', Returned, [PlaceResolve i LegB (accepted t2); Closed i])
      else
        let tr := {| trade_event_id := l_event_id l;
                     A_book := l_bA l; B_book := l_bB l;
                     stake_A := l_SA l; stake_B := l_SB l;
                     oA := l_oA l; oB := l_oB l;
                     profit_locked := l_locked l; roi := l_roi l;
                     trade_ts_ms := now' |} in
        (append_trade b' tr, Returned,
         [PlaceResolve i LegB (accepted t2); Closed i; Appended i])
  end.

(** ** The event loop

    The system is the bot and the pool of [try_trade] calls started so
    far.  The scheduler's choices are the events: the feed publishes a
    batch, a caller starts [try_trade], or the [place] call a task is
    waiting for comes back. *)

Record Sys := {
  bot : Bot;
  tasks : list Task
}.

Definition init : Sys := {| bot := new_bot; tasks := [] |}.

Inductive Event :=
| Publish (qs : list Quote)
| Tick (ev : string)
| Resolve (i : nat) (u : Q) (now now' : Z).

Definition step (cfg : Config) (s : Sys) (e : Event) : Sys * list Obs :=
  match e with
  | Publish qs => ({| bot := on_quotes (bot s) qs; tasks := tasks s |}, [])
  | Tick ev =>
      let '(b', t, o) := try_trade_start cfg (bot s) (length (tasks s)) ev in
      ({| bot := b'; tasks := tasks s ++ [t] |}, o)
  | Resolve i u now now' =>
      match tasks s !! i with
      | Some (AwaitLeg1 l) =>
          let '(b', t, o) := try_trade_leg1 (bot s) i l u now in
          ({| bot := b'; tasks := <[i := t]> (tasks s) |}, o)
      | Some (AwaitLeg2 l t1) =>
          let '(b', t, o) := try_trade_leg2 (bot s) i l t1 u now now' in
          ({| bot := b'; tasks := <[i := t]> (tasks s) |}, o)
      | _ => (s, [])
      end
  end.

Fixpoint run (cfg : Config) (s : Sys) (es : list Event) : Sys * list Obs :=
  match es with
  | [] => (s, [])
  | e :: es' =>
      let '(s1, o1) := step cfg s e in
      let '(s2, o2) := run cfg s1 es' in
      (s2, o1 ++ o2)
  end.

(** Trade attempts that have legs in flight. *)
Definition in_flight (t : Task) : bool :=
  match t with
  | AwaitLeg1 _ | AwaitLeg2 _ _ => true
  | _ => false
  end.

Fixpoint count_in_flight (ts : list Task) : nat :=
  match ts with
  | [] => O
  | t :: ts' => ((if in_flight t then 1 else 0) + count_in_flight ts')%nat
  end.

Definition legs_in_flight (s : Sys) : nat := count_in_flight (tasks s).

(** One attempt on its own, as the engine loop runs it: the call, the
    batches the feed publishes during the first wait, the first ticket,
    the batches published during the second wait, the second ticket. *)
Definition attempt_events (ev : string) (pubs1 : list (list Quote)) (u1 : Q) (now1 : Z)
    (pubs2 : list (list Quote)) (u2 : Q) (now2 now2' : Z) : list Event :=
  Tick ev :: map Publish pubs1 ++ Resolve 0 u1 now1 0 :: map Publish pubs2
    ++ [Resolve 0 u2 now2 now2'].

Definition attempt (cfg : Config) (b : Bot) (ev : string) (pubs1 : list (list Quote))
    (u1 : Q) (now1 : Z) (pubs2 : list (list Quote)) (u2 : Q) (now2 now2' : Z)
  : Sys * list Obs :=
  run cfg {| bot := b; tasks := [] |} (attempt_events ev pubs1 u1 now1 pubs2 u2 now2 now2').

(** ** The ledger's summary *)

Inductive Report :=
| NoCompletedArbitrages
| SessionSummary (n : Z) (avg_roi total_locked : Q).

(** Python's [sum] over floats: left to right from 0. *)
Definition fsum (l : list Q) : Q := foldl Qplus 0 l.

(** The unguarded computation of the average: [sum(...) / n]. *)
Definition avg_roi_of (ts : list Trade) : result Q :=
  fdiv (fsum (map roi ts)) (inject_Z (Z.of_nat (length ts))).

Definition summary (b : Bot) : result Report :=
  match trades b with
  | [] => Ok NoCompletedArbitrages
  | _ :: _ =>
      let n := Z.of_nat (length (trades b)) in
      avg_roi <-! avg_roi_of (trades b);
      let total_locked := fsum (map profit_locked (trades b)) in
      Ok (SessionSummary n avg_roi total_locked)
  end.

(** ** Vocabulary of the detector's properties *)

(** The two prices of a pairing, when both of its quotes are in the store. *)
Definition pairing_odds (qm : gmap (string * string) Quote) (c : Combo) : option (Q * Q) :=
  match qm !! c.1, qm !! c.2 with
  | Some q1, Some q2 => Some (decimal q1, decimal q2)
  | _, _ => None
  end.

Definition edge_of (o1 o2 : Q) : Q := 1 - (1 / o1 + 1 / o2).

Definition opp_edge (o : Opp) : Q := edge_of o.1.2 o.2.

(** No complete pairing of [cs] carries a zero price (a zero price makes
    [imp_prob_from_dec] raise). *)
Definition pairings_priced (qm : gmap (string * string) Quote) (cs : list Combo) : Prop :=
  forall c o1 o2, In c cs -> pairing_odds qm c = Some (o1, o2) -> ~ o1 == 0 /\ ~ o2 == 0.

(** [o] is the opportunity that the pairing [c] yields. *)
Definition opp_from (qm : gmap (string * string) Quote) (c : Combo) (o : Opp) : Prop :=
  pairing_odds qm c = Some (o.1.2, o.2) /\ o.1.1.1 = c.1.1 /\ o.1.1.2 = c.2.1.

(** A decidable form of [pairings_priced]. *)
Definition pairings_pricedb (qm : gmap (string * string) Quote) (cs : list Combo) : bool :=
  forallb (fun c => match pairing_odds qm c with
                    | Some (o1, o2) => negb (Qeq_bool o1 0) && negb (Qeq_bool o2 0)
                    | None => true
                    end) cs.

(** ** Sample stores *)

Definition quote_at (bk sd : string) (d : Q) : Quote :=
  {| book := bk; event_id := "EVT1"; side := sd; decimal := d; ts_ms := 0 |}.

(** BookA quotes A at 2.00 and BookB quotes B at 2.05: an edge of about 1.2%. *)
Definition wide_edge_bot : Bot :=
  on_quotes new_bot [quote_at "BookA" "A" 2.00; quote_at "BookB" "B" 2.05].

(** BookA quotes A at 2.00 and BookB quotes B at 2.001: an edge of about 0.025%. *)
Definition thin_edge_bot : Bot :=
  on_quotes new_bot [quote_at "BookA" "A" 2.00; quote_at "BookB" "B" 2.001].

(** ** Vocabulary of the coordinator's properties *)

Definition is_book (nm : string) : Prop := nm = "BookA"%string \/ nm = "BookB"%string.

(** The [Trade] that [try_trade] builds from its local variables. *)
Definition trade_of (l : Locals) (now : Z) : Trade :=
  {| trade_event_id := l_event_id l;
     A_book := l_bA l; B_book := l_bB l;
     stake_A := l_SA l; stake_B := l_SB l;
     oA := l_oA l; oB := l_oB l;
     profit_locked := l_locked l; roi := l_roi l;
     trade_ts_ms := now |}.

(** What the local variables of a suspended [try_trade] satisfy: they
    were computed from a reported opportunity.  [P] is a property of the
    prices the feed has published. *)
Record locals_ok (cfg : Config) (P : Q -> Prop) (l : Locals) : Prop := {
  lk_bA : is_book (l_bA l);
  lk_bB : is_book (l_bB l);
  lk_edge_pos : 0 < edge_of (l_oA l) (l_oB l);
  lk_edge_min : MIN_ARBITRAGE_EDGE cfg <= edge_of (l_oA l) (l_oB l);
  lk_oA : ~ l_oA l == 0;
  lk_oB : ~ l_oB l == 0;
  lk_sum : ~ l_oA l + l_oB l == 0;
  lk_T : ~ TOTAL_OUTLAY cfg == 0;
  lk_SA : l_SA l = TOTAL_OUTLAY cfg * l_oB l / (l_oA l + l_oB l);
  lk_SB : l_SB l = TOTAL_OUTLAY cfg - l_SA l;
  lk_locked : l_locked l = l_SA l * (l_oA l - 1) - l_SB l;
  lk_roi : l_roi l = l_locked l / TOTAL_OUTLAY cfg;
  lk_PA : P (l_oA l);
  lk_PB : P (l_oB l)
}.

Definition trade_ok (cfg : Config) (P : Q -> Prop) (tr : Trade) : Prop :=
  exists l now, tr = trade_of l now /\ locals_ok cfg P l.

Definition task_locals (t : Task) : option Locals :=
  match t with
  | AwaitLeg1 l | AwaitLeg2 l _ => Some l
  | _ => None
  end.

Definition store_ok (P : Q -> Prop) (b : Bot) : Prop :=
  forall k q, quotes b !! k = Some q -> P (decimal q).

Definition event_ok (P : Q -> Prop) (e : Event) : Prop :=
  match e with
  | Publish qs => Forall (fun q => P (decimal q)) qs
  | _ => True
  end.

(** The invariant of the event loop. *)
Record sys_inv (cfg : Config) (P : Q -> Prop) (s : Sys) : Prop := {
  inv_counter : open_trades (bot s) = Z.of_nat (legs_in_flight s);
  inv_cap : (open_trades (bot s) <= Z.max 0 (MAX_CONCURRENT cfg))%Z;
  inv_store : store_ok P (bot s);
  inv_locals : forall i t l, tasks s !! i = Some t -> task_locals t = Some l -> locals_ok cfg P l;
  inv_trades : Forall (trade_ok cfg P) (trades (bot s))
}.

(** In the log [obs], the second leg of attempt [i] begins before its
    first leg has resolved. *)
Definition legs_overlap (obs : list Obs) (i : nat) : Prop :=
  exists pre a post,
    obs = pre ++ PlaceResolve i LegA a :: post /\ In (PlaceBegin i LegB) pre.

(** In the log [obs], every second leg begins only after the first leg
    of the same attempt has resolved. *)
Definition legs_sequential (obs : list Obs) : Prop :=
  forall pre i post,
    obs = pre ++ PlaceBegin i LegB :: post ->
    exists a, In (PlaceResolve i LegA a) pre.

(** The run of the price example of the specification: both books
    publish, one attempt is started and both of its legs are accepted. *)
Definition sample_events : list Event :=
  [ Publish [feed_quote "BookA" "EVT1" "A" 2.00 1; feed_quote "BookA" "EVT1" "B" 1.90 1];
    Publish [feed_quote "BookB" "EVT1" "A" 1.90 1; feed_quote "BookB" "EVT1" "B" 2.05 1];
    Tick "EVT1";
    Resolve 0 0.5 100 0;
    Resolve 0 0.5 200 201 ].

Definition sample_run : Sys * list Obs := run default_config init sample_events.


(** Three calls of [try_trade] started on a store with an edge, before
    any leg resolves. *)
Definition burst_events : list Event :=
  [ Publish [feed_quote "BookA" "EVT1" "A" 2.00 1; feed_quote "BookB" "EVT1" "B" 2.05 1];
    Tick "EVT1"; Tick "EVT1"; Tick "EVT1" ].

(** The store after the feed has published the batches [pubs] in order. *)
Definition publish_all (b : Bot) (pubs : list (list Quote)) : Bot := foldl on_quotes b pubs.

(** The log of an attempt that places its legs. *)
Definition attempt_log (a1 a2 : bool) : list Obs :=
  [Opened 0; PlaceBegin 0 LegA; PlaceResolve 0 LegA a1;
   PlaceBegin 0 LegB; PlaceResolve 0 LegB a2; Closed 0]
  ++ (if a1 && a2 then [Appended 0] else []).


(** ** Further utilities of the script *)

(** [dec_from_american]: American odds (an [int]) to decimal odds, in
    rational arithmetic.  A line too large for a float, where Python's
    conversion raises [OverflowError], is outside this embedding. *)
Definition dec_from_american (a : Z) : result Q :=
  if (0 <? a)%Z
  then q <-! fdiv (inject_Z a) 100; Ok (1 + q)
  else q <-! fdiv 100 (inject_Z (Z.abs a)); Ok (1 + q).


(** ** Vocabulary of the quote store's properties *)

Definition quote_key (q : Quote) : string * string := (book q, side q).

(** The last quote of a batch stored under the key [k], if any. *)
Definition last_quote_for (k : string * string) (qs : list Quote) : option Quote :=
  List.find (fun q => bool_decide (quote_key q = k)) (rev qs).

(** The batches a schedule publishes, in order. *)
Fixpoint published (es : list Event) : list (list Quote) :=
  match es with
  | [] => []
  | Publish qs :: es' => qs :: published es'
  | _ :: es' => published es'
  end.


(** ** The shock feed

    [ShockFeed] keeps the fair prices of the two sides.  [_emit_shock]
    draws the favoured side, its fair price and four noise factors,
    publishes BookA's quotes near the new fair prices and BookB's stale
    quotes (the sides swapped), sleeps [BOOK_UPDATE_LAG_MS], then draws
    two more noise factors and publishes BookB's caught-up quotes.  The
    draws are inputs; the two halves are the two sides of the sleep. *)

Record ShockFeed := {
  feed_event_id : string;
  fair_dec_A : Q;
  fair_dec_B : Q
}.

Definition new_feed (ev : string) : ShockFeed :=
  {| feed_event_id := ev; fair_dec_A := 2.0; fair_dec_B := 2.0 |}.

Record ShockDraws := {
  fav_is_A : bool;        (* [random.choice(["A", "B"]) == "A"] *)
  fav_dec : Q;            (* [random.uniform(1.30, 1.70)] *)
  noise_A_A : Q;          (* the four [random.uniform(0.98, 1.02)], in order *)
  noise_A_B : Q;
  noise_stale_A : Q;
  noise_stale_B : Q
}.

Definition emit_shock_begin (f : ShockFeed) (d : ShockDraws) (ts : Z)
  : result (ShockFeed * list Quote * list Quote) :=
  p <-! fdiv 1 (fav_dec d);
  raw <-! fdiv 1 (1 - p);
  let dog_dec := floor_price raw in
  let f' := if fav_is_A d
            then {| feed_event_id := feed_event_id f;
                    fair_dec_A := fav_dec d; fair_dec_B := dog_dec |}
            else {| feed_event_id := feed_event_id f;
                    fair_dec_A := dog_dec; fair_dec_B := fav_dec d |} in
  let ev := feed_event_id f' in
  Ok (f',
      [feed_quote "BookA" ev "A" (fair_dec_A f' * noise_A_A d) ts;
       feed_quote "BookA" ev "B" (fair_dec_B f' * noise_A_B d) ts],
      [feed_quote "BookB" ev "A" (fair_dec_B f' * noise_stale_A d) ts;
       feed_quote "BookB" ev "B" (fair_dec_A f' * noise_stale_B d) ts]).

(** After the sleep: the two [random.uniform(0.98, 1.03)] are [mA], [mB]. *)
Definition emit_shock_end (f : ShockFeed) (mA mB : Q) (ts2 : Z) : list Quote :=
  [feed_quote "BookB" (feed_event_id f) "A" (fair_dec_A f * mA) ts2;
   feed_quote "BookB" (feed_event_id f) "B" (fair_dec_B f * mB) ts2].

(** [lo <= x <= hi]: what [random.uniform(lo, hi)] returns. *)
Definition in_range (lo hi x : Q) : Prop := lo <= x /\ x <= hi.

Definition shock_draws_ok (d : ShockDraws) : Prop :=
  in_range 1.30 1.70 (fav_dec d) /\
  in_range 0.98 1.02 (noise_A_A d) /\ in_range 0.98 1.02 (noise_A_B d) /\
  in_range 0.98 1.02 (noise_stale_A d) /\ in_range 0.98 1.02 (noise_stale_B d).

Definition sample_draws : ShockDraws :=
  {| fav_is_A := true; fav_dec := 1.50;
     noise_A_A := 1.00; noise_A_B := 0.99; noise_stale_A := 1.01; noise_stale_B := 1.00 |}.


(** The store once the two immediate batches of a shock have reached the bot. *)
Definition after_batches (b : Bot) (bA bB : list Quote) : Bot :=
  on_quotes (on_quotes b bA) bB.


(** ** The engine loop

    [engine] awaits one [try_trade] at a time and sleeps between two
    calls.  An [AttemptInput] is what the outside world does around one
    call: the batches published during the sleep before it and during
    its two waits, the random draws and the clock readings. *)

Record AttemptInput := {
  ai_sleep : list (list Quote);
  ai_wait1 : list (list Quote);
  ai_u1 : Q;
  ai_now1 : Z;
  ai_wait2 : list (list Quote);
  ai_u2 : Q;
  ai_now2 : Z;
  ai_now2' : Z
}.

Definition engine_attempt (cfg : Config) (ev : string) (b : Bot) (a : AttemptInput) : Bot :=
  bot (attempt cfg (publish_all b (ai_sleep a)) ev
         (ai_wait1 a) (ai_u1 a) (ai_now1 a) (ai_wait2 a) (ai_u2 a) (ai_now2 a) (ai_now2' a)).1.

Definition engine (cfg : Config) (ev : string) (inputs : list AttemptInput) : Bot :=
  foldl (engine_attempt cfg ev) new_bot inputs.

(** The number of calls of [try_trade] in a schedule. *)
Fixpoint ticks (es : list Event) : nat :=
  match es with
  | [] => O
  | Tick _ :: es' => S (ticks es')
  | _ :: es' => ticks es'
  end.

Definition sample_inputs : list AttemptInput :=
  [ {| ai_sleep := [[feed_quote "BookA" "EVT1" "A" 2.00 1; feed_quote "BookA" "EVT1" "B" 1.90 1];
                    [feed_quote "BookB" "EVT1" "A" 1.90 1; feed_quote "BookB" "EVT1" "B" 2.05 1]];
       ai_wait1 := []; ai_u1 := 0.5; ai_now1 := 100;
       ai_wait2 := []; ai_u2 := 0.5; ai_now2 := 200; ai_now2' := 201 |};
    {| ai_sleep := []; ai_wait1 := []; ai_u1 := 0.01; ai_now1 := 300;
       ai_wait2 := []; ai_u2 := 0.5; ai_now2 := 400; ai_now2' := 401 |} ].


Definition not_raised (t : Task) : Prop :=
  match t with
  | Raised _ => False
  | _ => True
  end.

(** What one step of attempt [i] can write to the log. *)
Definition step_log_shape (i : nat) (obs : list Obs) : Prop :=
  obs = [] \/
  obs = [Opened i] \/
  obs = [Opened i; PlaceBegin i LegA] \/
  (exists a, obs = [PlaceResolve i LegA a]) \/
  (exists a, obs = [PlaceResolve i LegA a; PlaceBegin i LegB]) \/
  (exists a, obs = [PlaceResolve i LegB a; Closed i]) \/
  (exists a, obs = [PlaceResolve i LegB a; Closed i; Appended i]).


(** ** The detector in the program's own arithmetic

    The definitions above idealise Python's floats as rationals.  The
    detector's answer turns on comparisons of rounded numbers, so it is
    embedded a second time with binary64 arithmetic (Rocq's primitive
    floats): the same loop, with [1.0 / o], [+], [1.0 - _], [>] and [>=]
    as the IEEE 754 operations Python performs. *)

Module Binary64.

(** Python's [a / b] on floats: raises when [b == 0.0] (either zero). *)
Definition fdiv (a b : float) : result float :=
  if (b =? 0)%float then Raise ZeroDivisionError else Ok (a / b)%float.

Definition imp_prob_from_dec (o : float) : result float := fdiv 1 o.

Record Quote := {
  book : string;
  event_id : string;
  side : string;
  decimal : float;
  ts_ms : Z
}.

(** [MIN_ARBITRAGE_EDGE = 0.005]: the double nearest to 0.005. *)
Definition MIN_ARBITRAGE_EDGE : float := 0x1.47ae147ae147bp-8%float.

Definition Opp : Type := string * string * float * float.

Fixpoint find_loop (qm : gmap (string * string) Quote) (cs : list Combo)
    (best : option Opp) (best_edge : float) : result (option Opp * float) :=
  match cs with
  | [] => Ok (best, best_edge)
  | ((b1, s1), (b2, s2)) :: cs' =>
      match qm !! (b1, s1), qm !! (b2, s2) with
      | Some q1, Some q2 =>
          p1 <-! imp_prob_from_dec (decimal q1);
          p2 <-! imp_prob_from_dec (decimal q2);
          let p_sum := (p1 + p2)%float in
          let edge := (1 - p_sum)%float in
          if (best_edge <? edge)%float
          then find_loop qm cs' (Some (b1, b2, decimal q1, decimal q2)) edge
          else find_loop qm cs' best best_edge
      | _, _ => find_loop qm cs' best best_edge
      end
  end.

(** [find_opportunity] with the threshold [min_edge] and the store [qm]. *)
Definition find_opportunity (min_edge : float) (qm : gmap (string * string) Quote)
  : result (option Opp) :=
  r <-! find_loop qm combos None 0%float;
  let '(best, best_edge) := r in
  match best with
  | Some o => if (min_edge <=? best_edge)%float then Ok (Some o) else Ok None
  | None => Ok None
  end.

(** The store after [on_quotes] has applied a batch. *)
Definition on_quotes (qm : gmap (string * string) Quote) (qs : list Quote)
  : gmap (string * string) Quote :=
  foldl (fun m q => <[(book q, side q) := q]> m) qm qs.

(** *** Vocabulary *)

(** The IEEE 754 comparison of two floats ([None] when one is a NaN). *)
Definition fcmp (x y : float) : option comparison := SFcompare (Prim2SF x) (Prim2SF y).

Definition pairing_odds (qm : gmap (string * string) Quote) (c : Combo)
  : option (float * float) :=
  match qm !! c.1, qm !! c.2 with
  | Some q1, Some q2 => Some (decimal q1, decimal q2)
  | _, _ => None
  end.

(** The edge as the program computes it. *)
Definition edge_of (o1 o2 : float) : float := (1 - (1 / o1 + 1 / o2))%float.

Definition opp_edge (o : Opp) : float := edge_of o.1.2 o.2.

(** No complete pairing carries a zero price. *)
Definition pairings_priced (qm : gmap (string * string) Quote) (cs : list Combo) : Prop :=
  forall c o1 o2, In c cs -> pairing_odds qm c = Some (o1, o2) ->
                  (o1 =? 0)%float = false /\ (o2 =? 0)%float = false.

Definition opp_from (qm : gmap (string * string) Quote) (c : Combo) (o : Opp) : Prop :=
  pairing_odds qm c = Some (o.1.2, o.2) /\ o.1.1.1 = c.1.1 /\ o.1.1.2 = c.2.1.

Definition quote_at (bk sd : string) (d : float) : Quote :=
  {| book := bk; event_id := "EVT1"; side := sd; decimal := d; ts_ms := 0 |}.

(** BookA quotes A at 2.00 and BookB quotes B at 2.05. *)
Definition wide_edge_store : gmap (string * string) Quote :=
  on_quotes ∅ [quote_at "BookA" "A" 2%float; quote_at "BookB" "B" 0x1.0666666666666p+1%float].

(** BookA quotes A at 4 and BookB quotes B at 4: an edge of exactly 0.5. *)
Definition half_edge_store : gmap (string * string) Quote :=
  on_quotes ∅ [quote_at "BookA" "A" 4%float; quote_at "BookB" "B" 4%float].

(** Both pairings complete: prices (2, 12) on the first, (3, 4) on the
    second; the exact edges tie at 5/12, the computed ones do not. *)
Definition rounded_tie_store : gmap (string * string) Quote :=
  on_quotes ∅ [quote_at "BookA" "A" 2%float; quote_at "BookB" "B" 12%float;
               quote_at "BookB" "A" 3%float; quote_at "BookA" "B" 4%float].

(** BookA quotes A at 2.00 and BookB quotes B at 2.001. *)
Definition thin_edge_store : gmap (string * string) Quote :=
  on_quotes ∅ [quote_at "BookA" "A" 2%float; quote_at "BookB" "B" 0x1.0020c49ba5e35p+1%float].

(** Prices 1.5 and 3.045685279187817: the exact edge is just under
    1/200, the computed one just over the threshold. *)
Definition rounded_up_store : gmap (string * string) Quote :=
  on_quotes ∅ [quote_at "BookA" "A" 0x1.8p+0%float;
               quote_at "BookB" "B" 0x1.85d903e602995p+1%float].

(** Prices 1.4365305681810365 and 3.345842653138331: the exact edge is
    just over the threshold, the computed one just under. *)
Definition rounded_down_store : gmap (string * string) Quote :=
  on_quotes ∅ [quote_at "BookA" "A" 0x1.6fc077a20ab6bp+0%float;
               quote_at "BookB" "B" 0x1.ac449272653fap+1%float].

End Binary64.

(** * Properties *)

(** ** Arithmetic helpers *)

Lemma fdiv_ok (a b : Q) : ~ b == 0 -> fdiv a b = Ok (a / b).
Proof.
  intros Hb. unfold fdiv.
  destruct (Qeq_bool b 0) eqn:E; [|reflexivity].
  apply Qeq_bool_iff in E. contradiction.
Qed.

Lemma fdiv_zero (a b : Q) : b == 0 -> fdiv a b = Raise ZeroDivisionError.
Proof.
  intros Hb. unfold fdiv.
  apply Qeq_bool_iff in Hb. now rewrite Hb.
Qed.

Lemma Qltb_lt (a b : Q) : Qltb a b = true <-> a < b.
Proof.
  unfold Qltb. rewrite negb_true_iff.
  destruct (Qle_bool b a) eqn:E.
  - apply Qle_bool_iff in E. split; [discriminate | intros H; lra].
  - split; [intros _ | reflexivity].
    destruct (Qlt_le_dec a b) as [H|H]; [exact H|].
    apply Qle_bool_iff in H. congruence.
Qed.

Lemma Qltb_ge (a b : Q) : Qltb a b = false <-> b <= a.
Proof.
  unfold Qltb. rewrite negb_false_iff. apply Qle_bool_iff.
Qed.

Lemma Qle_bool_false (a b : Q) : Qle_bool a b = false <-> b < a.
Proof.
  rewrite <- Qltb_lt. unfold Qltb. now rewrite negb_true_iff.
Qed.

(** ** The stake solver *)

(** C4: for decimal odds [o1, o2 > 1] and outlay [T > 0] the solver
    returns [s1 = T * o2 / (o1 + o2)] and [s2 = T - s1], the two stakes
    add up to [T], and the two payouts [s1 * o1] and [s2 * o2] are equal
    (in rational arithmetic). *)
Theorem solve_equalized_stakes_correct (o1 o2 T : Q) :
  1 < o1 -> 1 < o2 -> 0 < T ->
  exists s1 s2 locked,
    solve_equalized_stakes o1 o2 T = Ok (s1, s2, locked) /\
    s1 = T * o2 / (o1 + o2) /\
    s2 = T - s1 /\
    s1 + s2 == T /\
    s1 * o1 == s2 * o2.
Proof.
  intros H1 H2 HT.
  assert (Hs : ~ o1 + o2 == 0) by lra.
  exists (T * o2 / (o1 + o2)), (T - T * o2 / (o1 + o2)).
  eexists. unfold solve_equalized_stakes.
  rewrite (fdiv_ok _ _ Hs). cbn [rbind].
  split; [reflexivity|].
  repeat split; try reflexivity.
  - ring.
  - field. exact Hs.
Qed.

Lemma solve_equalized_stakes_correct_witness :
  exists s1 s2 locked,
    solve_equalized_stakes 2 2.05 200 = Ok (s1, s2, locked) /\
    s1 = 200 * 2.05 / (2 + 2.05) /\
    s2 = 200 - s1 /\
    s1 + s2 == 200 /\
    s1 * 2 == s2 * 2.05.
Proof.
  apply (solve_equalized_stakes_correct 2 2.05 200); reflexivity.
Defined.

(** ** The summary *)

Lemma inject_Z_S_nonzero (n : nat) : ~ inject_Z (Z.of_nat (S n)) == 0.
Proof.
  unfold Qeq. cbn [Qnum Qden inject_Z]. lia.
Qed.

(** C9: on an empty ledger [summary] reports the empty state and does
    not raise, although the average it guards, [sum(...) / n], would
    divide by zero there; on no ledger at all does [summary] raise. *)
Theorem summary_empty_ledger (b : Bot) :
  trades b = [] ->
  summary b = Ok NoCompletedArbitrages /\
  avg_roi_of (trades b) = Raise ZeroDivisionError /\
  (forall b' e, summary b' <> Raise e).
Proof.
  intros Hb. unfold summary. rewrite Hb. repeat split.
  intros b' e. unfold summary.
  destruct (trades b') as [|t ts] eqn:E; [discriminate|].
  unfold avg_roi_of. rewrite fdiv_ok by apply inject_Z_S_nonzero.
  discriminate.
Qed.

Lemma summary_empty_ledger_witness :
  summary new_bot = Ok NoCompletedArbitrages /\
  avg_roi_of (trades new_bot) = Raise ZeroDivisionError /\
  (forall b' e, summary b' <> Raise e).
Proof.
  apply (summary_empty_ledger new_bot). reflexivity.
Defined.

(** ** The opportunity detector *)

Lemma find_loop_incomplete qm c cs best e :
  pairing_odds qm c = None ->
  find_loop qm (c :: cs) best e = find_loop qm cs best e.
Proof.
  destruct c as [[b1 s1] [b2 s2]]. unfold pairing_odds. cbn.
  destruct (qm !! (b1, s1)); [|reflexivity].
  destruct (qm !! (b2, s2)); [discriminate|reflexivity].
Qed.

Lemma find_loop_complete qm b1 s1 b2 s2 cs best e o1 o2 :
  pairing_odds qm ((b1, s1), (b2, s2)) = Some (o1, o2) ->
  ~ o1 == 0 -> ~ o2 == 0 ->
  find_loop qm (((b1, s1), (b2, s2)) :: cs) best e =
    if Qltb e (edge_of o1 o2)
    then find_loop qm cs (Some (b1, b2, o1, o2)) (edge_of o1 o2)
    else find_loop qm cs best e.
Proof.
  unfold pairing_odds. cbn.
  destruct (qm !! (b1, s1)) as [q1|]; [|discriminate].
  destruct (qm !! (b2, s2)) as [q2|]; [|discriminate].
  intros [= <- <-] H1 H2.
  unfold imp_prob_from_dec. rewrite !fdiv_ok by assumption. reflexivity.
Qed.

Lemma find_loop_skip qm cs1 c cs2 best e :
  pairing_odds qm c = None ->
  find_loop qm (cs1 ++ c :: cs2) best e = find_loop qm (cs1 ++ cs2) best e.
Proof.
  intros Hc. revert best e.
  induction cs1 as [|[[b1 s1] [b2 s2]] cs1 IH]; intros best e.
  - apply find_loop_incomplete, Hc.
  - cbn.
    destruct (qm !! (b1, s1)) as [q1|]; [|apply IH].
    destruct (qm !! (b2, s2)) as [q2|]; [|apply IH].
    destruct (imp_prob_from_dec (decimal q1)); [|reflexivity].
    destruct (imp_prob_from_dec (decimal q2)); [|reflexivity].
    cbn. destruct (Qltb _ _); apply IH.
Qed.

Lemma find_loop_none_complete qm cs best e :
  (forall c, In c cs -> pairing_odds qm c = None) ->
  find_loop qm cs best e = Ok (best, e).
Proof.
  induction cs as [|c cs IH]; intros H; [reflexivity|].
  rewrite find_loop_incomplete by (apply H; now left).
  apply IH. intros c' Hc'. apply H. now right.
Qed.

(** C8: a pairing with a quote missing from the store is skipped: the
    detector answers as it does on the list of pairings without it
    (in particular it does not raise on it); and when
    both pairings are incomplete it reports no opportunity, without
    raising. *)
Theorem incomplete_pairing_skipped (cfg : Config) (b : Bot) :
  (forall cs1 c cs2,
      pairing_odds (quotes b) c = None ->
      find_opportunity_in cfg (cs1 ++ c :: cs2) (quotes b)
      = find_opportunity_in cfg (cs1 ++ cs2) (quotes b)) /\
  (forall c1 c2,
      combos = [c1; c2] ->
      (pairing_odds (quotes b) c1 = None ->
       find_opportunity cfg b = find_opportunity_in cfg [c2] (quotes b)) /\
      (pairing_odds (quotes b) c2 = None ->
       find_opportunity cfg b = find_opportunity_in cfg [c1] (quotes b)) /\
      (pairing_odds (quotes b) c1 = None ->
       pairing_odds (quotes b) c2 = None ->
       find_opportunity cfg b = Ok None)).
Proof.
  assert (Hskip : forall cs1 c cs2,
      pairing_odds (quotes b) c = None ->
      find_opportunity_in cfg (cs1 ++ c :: cs2) (quotes b)
      = find_opportunity_in cfg (cs1 ++ cs2) (quotes b)).
  { intros cs1 c cs2 Hc. unfold find_opportunity_in.
    now rewrite find_loop_skip. }
  split; [exact Hskip|].
  intros c1 c2 Hcs. unfold find_opportunity. rewrite Hcs.
  split; [|split].
  - intros H1. apply (Hskip [] c1 [c2] H1).
  - intros H2. apply (Hskip [c1] c2 [] H2).
  - intros H1 H2. unfold find_opportunity_in.
    rewrite find_loop_none_complete; [reflexivity|].
    intros c [<-|[<-|[]]]; assumption.
Qed.

Lemma pairings_priced_tail qm c cs :
  pairings_priced qm (c :: cs) -> pairings_priced qm cs.
Proof.
  intros H c' o1 o2 Hin. apply H. now right.
Qed.

(** The loop invariant of [find_opportunity]: the loop does not raise
    on priced pairings, [best_edge] bounds every edge seen, and [best]
    is either untouched or the pairing that set [best_edge]. *)
Lemma find_loop_spec qm cs :
  pairings_priced qm cs ->
  forall best e,
  exists best' e',
    find_loop qm cs best e = Ok (best', e') /\
    e <= e' /\
    (forall c o1 o2, In c cs -> pairing_odds qm c = Some (o1, o2) -> edge_of o1 o2 <= e') /\
    ((best' = best /\ e' = e) \/
     (exists c o, In c cs /\ opp_from qm c o /\ best' = Some o /\ e' = opp_edge o /\ e < e')).
Proof.
  induction cs as [|c cs IH]; intros Hp best e.
  - exists best, e. repeat split; [lra | intros ? ? ? [] | now left].
  - specialize (IH (pairings_priced_tail _ _ _ Hp)).
    destruct (pairing_odds qm c) as [[o1 o2]|] eqn:Hc.
    + destruct (Hp c o1 o2 (or_introl eq_refl) Hc) as [Hz1 Hz2].
      destruct c as [[b1 s1] [b2 s2]].
      rewrite (find_loop_complete _ _ _ _ _ _ _ _ _ _ Hc Hz1 Hz2).
      destruct (Qltb e (edge_of o1 o2)) eqn:Hlt.
      * apply Qltb_lt in Hlt.
        destruct (IH (Some (b1, b2, o1, o2)) (edge_of o1 o2))
          as (best' & e' & Hrun & Hle & Hmax & Hwho).
        exists best', e'. split; [exact Hrun|]. split; [lra|]. split.
        { intros c' p1 p2 [<-|Hin] Hc'.
          - rewrite Hc in Hc'. injection Hc' as <- <-. exact Hle.
          - eapply Hmax; eassumption. }
        right. destruct Hwho as [[-> ->]|(c' & o & Hin & Hfrom & -> & -> & Hlt')].
        { exists ((b1, s1), (b2, s2)), (b1, b2, o1, o2).
          split; [now left|]. repeat split; try assumption. }
        { exists c', o. split; [now right|]. repeat split; try apply Hfrom. lra. }
      * apply Qltb_ge in Hlt.
        destruct (IH best e) as (best' & e' & Hrun & Hle & Hmax & Hwho).
        exists best', e'. split; [exact Hrun|]. split; [exact Hle|]. split.
        { intros c' p1 p2 [<-|Hin] Hc'.
          - rewrite Hc in Hc'. injection Hc' as <- <-. lra.
          - eapply Hmax; eassumption. }
        destruct Hwho as [?|(c' & o & Hin & Hfrom & -> & -> & Hlt')]; [now left|].
        right. exists c', o. split; [now right|]. repeat split; try apply Hfrom. exact Hlt'.
    + rewrite (find_loop_incomplete _ _ _ _ _ Hc).
      destruct (IH best e) as (best' & e' & Hrun & Hle & Hmax & Hwho).
      exists best', e'. split; [exact Hrun|]. split; [exact Hle|]. split.
      { intros c' p1 p2 [<-|Hin] Hc'; [congruence|]. eapply Hmax; eassumption. }
      destruct Hwho as [?|(c' & o & Hin & Hfrom & -> & -> & Hlt')]; [now left|].
      right. exists c', o. split; [now right|]. repeat split; try apply Hfrom. exact Hlt'.
Qed.

(** What the detector answers on priced pairings: nothing when no edge
    is positive or the greatest edge is under the threshold, and
    otherwise a pairing of greatest edge. *)
Lemma find_opportunity_in_spec cfg cs qm :
  pairings_priced qm cs ->
  (find_opportunity_in cfg cs qm = Ok None /\
   ((forall c o1 o2, In c cs -> pairing_odds qm c = Some (o1, o2) -> edge_of o1 o2 <= 0) \/
    (exists c o, In c cs /\ opp_from qm c o /\ opp_edge o < MIN_ARBITRAGE_EDGE cfg /\
       forall c' o1 o2, In c' cs -> pairing_odds qm c' = Some (o1, o2) ->
         edge_of o1 o2 <= opp_edge o))) \/
  (exists c o,
     find_opportunity_in cfg cs qm = Ok (Some o) /\
     In c cs /\ opp_from qm c o /\
     0 < opp_edge o /\ MIN_ARBITRAGE_EDGE cfg <= opp_edge o /\
     forall c' o1 o2, In c' cs -> pairing_odds qm c' = Some (o1, o2) ->
       edge_of o1 o2 <= opp_edge o).
Proof.
  intros Hp.
  destruct (find_loop_spec qm cs Hp None 0) as (best' & e' & Hrun & Hle & Hmax & Hwho).
  unfold find_opportunity_in. rewrite Hrun. cbn [rbind].
  destruct Hwho as [[-> ->]|(c & o & Hin & Hfrom & -> & -> & Hpos)].
  - left. split; [reflexivity|]. left. exact Hmax.
  - destruct (Qle_bool (MIN_ARBITRAGE_EDGE cfg) (opp_edge o)) eqn:Hmin.
    + apply Qle_bool_iff in Hmin. right. exists c, o.
      split; [reflexivity|]. split; [exact Hin|]. split; [exact Hfrom|].
      split; [exact Hpos|]. split; [exact Hmin|exact Hmax].
    + apply Qle_bool_false in Hmin. left. split; [reflexivity|].
      right. exists c, o.
      split; [exact Hin|]. split; [exact Hfrom|]. split; [exact Hmin|exact Hmax].
Qed.

Lemma pairings_pricedb_sound qm cs :
  pairings_pricedb qm cs = true -> pairings_priced qm cs.
Proof.
  unfold pairings_pricedb. rewrite forallb_forall.
  intros H c o1 o2 Hin Hc. specialize (H c Hin). rewrite Hc in H.
  apply andb_true_iff in H as [H1 H2].
  apply negb_true_iff in H1, H2.
  split; intros Hz; apply Qeq_bool_iff in Hz; congruence.
Qed.

(** C5, as stated, fails: a cross-venue pair whose implied probabilities
    sum to less than 1 is not reported when its edge is under
    [MIN_ARBITRAGE_EDGE]. *)
Lemma thin_edge_not_reported :
  pairing_odds (quotes thin_edge_bot) (("BookA", "A"), ("BookB", "B"))%string
    = Some (2.00, 2.001) /\
  1 / 2.00 + 1 / 2.001 < 1 /\
  find_opportunity default_config thin_edge_bot = Ok None.
Proof.
  split; [|split]; vm_compute; reflexivity.
Qed.

(** ** The execution venues *)

Lemma combos_books c : In c combos -> is_book c.1.1 /\ is_book c.2.1.
Proof.
  intros [<-|[<-|[]]]; cbn; unfold is_book; auto.
Qed.

Lemma books_ok nm : is_book nm -> books nm = Ok nm.
Proof. intros [->| ->]; reflexivity. Qed.

Lemma call_place_ok nm : is_book nm -> call_place nm = Ok nm.
Proof. intros [->| ->]; reflexivity. Qed.

Lemma place_resolve_ok nm ev sd stk odds u now :
  is_book nm ->
  exists t, place_resolve nm ev sd stk odds u now = Ok t /\
            stake t = stk /\ decimal_odds t = odds.
Proof.
  intros [->| ->]; unfold place_resolve; cbn;
    match goal with |- context [Qltb ?a ?b] => destruct (Qltb a b) end;
    eexists; (split; [reflexivity|]); split; reflexivity.
Qed.

(** ** What a reported opportunity is *)

Lemma find_loop_ok_priced qm cs :
  forall best e r, find_loop qm cs best e = Ok r -> pairings_priced qm cs.
Proof.
  induction cs as [|[[b1 s1] [b2 s2]] cs IH]; intros best e r Hrun.
  - intros c o1 o2 [].
  - cbn in Hrun. unfold pairings_priced, pairing_odds.
    destruct (qm !! (b1, s1)) as [q1|] eqn:E1.
    2:{ intros c o1 o2 [<-|Hin] Hc; cbn in Hc.
        - rewrite E1 in Hc. discriminate.
        - eapply (IH _ _ _ Hrun); eassumption. }
    destruct (qm !! (b2, s2)) as [q2|] eqn:E2.
    2:{ intros c o1 o2 [<-|Hin] Hc; cbn in Hc.
        - rewrite E1, E2 in Hc. discriminate.
        - eapply (IH _ _ _ Hrun); eassumption. }
    unfold imp_prob_from_dec, fdiv in Hrun.
    destruct (Qeq_bool (decimal q1) 0) eqn:Z1; [discriminate|].
    destruct (Qeq_bool (decimal q2) 0) eqn:Z2; [discriminate|].
    cbn in Hrun.
    assert (Htail : pairings_priced qm cs).
    { destruct (Qltb _ _) in Hrun; eapply IH; eassumption. }
    intros c o1 o2 [<-|Hin] Hc; cbn in Hc.
    + rewrite E1, E2 in Hc. injection Hc as <- <-.
      split; intros Hz; apply Qeq_bool_iff in Hz; congruence.
    + eapply Htail; eassumption.
Qed.

Lemma find_opportunity_some cfg b o :
  find_opportunity cfg b = Ok (Some o) ->
  exists c, In c combos /\ opp_from (quotes b) c o /\
            0 < opp_edge o /\ MIN_ARBITRAGE_EDGE cfg <= opp_edge o /\
            ~ o.1.2 == 0 /\ ~ o.2 == 0.
Proof.
  intros Hfind. unfold find_opportunity in Hfind.
  assert (Hp : pairings_priced (quotes b) combos).
  { unfold find_opportunity_in in Hfind.
    destruct (find_loop (quotes b) combos None 0) as [r|] eqn:E; [|discriminate].
    eapply find_loop_ok_priced, E. }
  destruct (find_opportunity_in_spec cfg combos (quotes b) Hp)
    as [[Hnone _]|(c & o' & Hsome & Hin & Hfrom & Hpos & Hmin & _)].
  - congruence.
  - rewrite Hsome in Hfind. injection Hfind as <-.
    exists c. split; [exact Hin|]. split; [exact Hfrom|].
    split; [exact Hpos|]. split; [exact Hmin|].
    destruct Hfrom as (Ho & _). apply (Hp c _ _ Hin Ho).
Qed.

(** ** The three segments of [try_trade] *)

Lemma opp_from_store P b c o :
  store_ok P b -> opp_from (quotes b) c o -> P o.1.2 /\ P o.2.
Proof.
  intros Hs (Ho & _). unfold pairing_odds in Ho.
  destruct (quotes b !! c.1) as [q1|] eqn:E1; [|discriminate].
  destruct (quotes b !! c.2) as [q2|] eqn:E2; [|discriminate].
  injection Ho as <- <-. split; eapply Hs; eassumption.
Qed.

Lemma try_trade_start_cases cfg P b i ev :
  store_ok P b ->
  (try_trade_start cfg b i ev = (b, Returned, []) /\
   ((MAX_CONCURRENT cfg <= open_trades b)%Z \/ find_opportunity cfg b = Ok None)) \/
  (exists e, try_trade_start cfg b i ev = (b, Raised e, [])) \/
  (exists l,
     try_trade_start cfg b i ev
     = (set_open b (open_trades b + 1), AwaitLeg1 l, [Opened i; PlaceBegin i LegA]) /\
     (open_trades b < MAX_CONCURRENT cfg)%Z /\
     locals_ok cfg P l /\ l_event_id l = ev).
Proof.
  intros Hs. unfold try_trade_start.
  destruct (MAX_CONCURRENT cfg <=? open_trades b)%Z eqn:Hcap.
  { left. split; [reflexivity|]. left. lia. }
  destruct (find_opportunity cfg b) as [[o|]|e] eqn:Hfind.
  3:{ right. left. now exists e. }
  2:{ left. split; [reflexivity|]. now right. }
  destruct (find_opportunity_some _ _ _ Hfind)
    as (c & Hin & Hfrom & Hpos & Hmin & Hz1 & Hz2).
  destruct (opp_from_store _ _ _ _ Hs Hfrom) as [HP1 HP2].
  destruct (combos_books c Hin) as [Hb1 Hb2].
  destruct Hfrom as (_ & Hn1 & Hn2).
  destruct o as [[[bA bB] o_A] o_B]. cbn in Hpos, Hz1, Hz2, HP1, HP2, Hn1, Hn2.
  unfold opp_edge in Hpos, Hmin. cbn in Hpos, Hmin.
  unfold solve_equalized_stakes, fdiv.
  destruct (Qeq_bool (o_A + o_B) 0) eqn:Hsum; cbn [rbind].
  { right. left. now eexists. }
  match goal with |- context [Qeq_bool (TOTAL_OUTLAY cfg) 0] =>
    destruct (Qeq_bool (TOTAL_OUTLAY cfg) 0) eqn:HT end.
  { right. left. now eexists. }
  rewrite call_place_ok by (rewrite Hn1; exact Hb1).
  right. right. eexists. split; [reflexivity|]. split; [lia|].
  split; [|reflexivity].
  constructor; cbn; try reflexivity; try assumption.
  - rewrite Hn1. exact Hb1.
  - rewrite Hn2. exact Hb2.
  - intros Hz. apply Qeq_bool_iff in Hz. congruence.
  - intros Hz. apply Qeq_bool_iff in Hz. congruence.
Qed.

Lemma try_trade_leg1_cases cfg P b i l u now :
  locals_ok cfg P l ->
  exists t1,
    try_trade_leg1 b i l u now
    = (b, AwaitLeg2 l t1, [PlaceResolve i LegA (accepted t1); PlaceBegin i LegB]).
Proof.
  intros Hl. unfold try_trade_leg1.
  rewrite (books_ok _ (lk_bA _ _ _ Hl)). cbn [rbind].
  destruct (place_resolve_ok (l_bA l) (l_event_id l) "A" (l_SA l) (l_oA l) u now
              (lk_bA _ _ _ Hl)) as (t1 & -> & _).
  rewrite (call_place_ok _ (lk_bB _ _ _ Hl)).
  now exists t1.
Qed.

Lemma try_trade_leg2_cases cfg P b i l t1 u now now' :
  locals_ok cfg P l ->
  exists t2,
    try_trade_leg2 b i l t1 u now now'
    = if accepted t1 && accepted t2
      then (append_trade (set_open b (open_trades b - 1)) (trade_of l now'), Returned,
            [PlaceResolve i LegB (accepted t2); Closed i; Appended i])
      else (set_open b (open_trades b - 1), Returned,
            [PlaceResolve i LegB (accepted t2); Closed i]).
Proof.
  intros Hl. unfold try_trade_leg2.
  rewrite (books_ok _ (lk_bB _ _ _ Hl)). cbn [rbind].
  destruct (place_resolve_ok (l_bB l) (l_event_id l) "B" (l_SB l) (l_oB l) u now
              (lk_bB _ _ _ Hl)) as (t2 & -> & _).
  exists t2. destruct (accepted t1 && accepted t2); reflexivity.
Qed.

(** ** The invariant of the event loop *)

Lemma count_in_flight_app ts t :
  count_in_flight (ts ++ [t]) = (count_in_flight ts + if in_flight t then 1 else 0)%nat.
Proof.
  induction ts as [|t' ts IH]; cbn; [lia|]. rewrite IH. lia.
Qed.

Lemma count_in_flight_insert ts i t t' :
  ts !! i = Some t ->
  (count_in_flight (<[i := t']> ts) + (if in_flight t then 1 else 0)
   = count_in_flight ts + (if in_flight t' then 1 else 0))%nat.
Proof.
  revert i. induction ts as [|t0 ts IH]; intros [|i] Hi; try discriminate.
  - cbn in Hi. injection Hi as ->. cbn. lia.
  - cbn in Hi. specialize (IH i Hi).
    change (<[S i := t']> (t0 :: ts)) with (t0 :: <[i := t']> ts).
    cbn [count_in_flight]. lia.
Qed.

Lemma on_quotes_store P b qs :
  store_ok P b -> Forall (fun q => P (decimal q)) qs -> store_ok P (on_quotes b qs).
Proof.
  unfold store_ok, on_quotes. cbn. generalize (quotes b) as m.
  induction qs as [|q0 qs IH]; intros m Hm Hqs k q; cbn; [apply Hm|].
  apply Forall_cons_1 in Hqs as [H0 Hqs].
  apply IH; [|exact Hqs].
  intros k' q' Hk'. apply lookup_insert_Some in Hk' as [[_ <-]|[_ Hk']]; [exact H0|].
  eapply Hm, Hk'.
Qed.

Lemma sys_inv_init cfg P : sys_inv cfg P init.
Proof.
  constructor.
  - reflexivity.
  - cbn. lia.
  - intros k q Hk. unfold init, new_bot in Hk. cbn [bot quotes] in Hk.
    rewrite lookup_empty in Hk. discriminate.
  - intros i t l Hi. destruct i; discriminate.
  - constructor.
Qed.

Lemma sys_inv_step cfg P s e :
  sys_inv cfg P s -> event_ok P e -> sys_inv cfg P (step cfg s e).1.
Proof.
  intros [Hcnt Hcap Hstore Hloc Htr] He. unfold legs_in_flight in Hcnt.
  destruct e as [qs|ev|i u now now']; cbn [step].
  - (* the feed publishes *)
    constructor; cbn; try assumption.
    apply on_quotes_store; assumption.
  - (* a call of try_trade *)
    destruct (try_trade_start_cases cfg P (bot s) (length (tasks s)) ev Hstore)
      as [[-> _]|[[e ->]|(l & -> & Hlt & Hl & _)]]; cbn.
    + constructor; cbn; unfold legs_in_flight; cbn; try assumption.
      * rewrite count_in_flight_app. cbn. rewrite Hcnt. lia.
      * intros i t l Hi Ht. apply lookup_app_Some in Hi as [Hi|[_ Hi]].
        { eapply Hloc; eassumption. }
        apply list_lookup_singleton_Some in Hi as [_ <-]. discriminate.
    + constructor; cbn; unfold legs_in_flight; cbn; try assumption.
      * rewrite count_in_flight_app. cbn. rewrite Hcnt. lia.
      * intros i t l Hi Ht. apply lookup_app_Some in Hi as [Hi|[_ Hi]].
        { eapply Hloc; eassumption. }
        apply list_lookup_singleton_Some in Hi as [_ <-]. discriminate.
    + constructor; cbn; unfold legs_in_flight; cbn; try assumption.
      * rewrite count_in_flight_app. cbn. rewrite Hcnt. lia.
      * lia.
      * intros i t l' Hi Ht. apply lookup_app_Some in Hi as [Hi|[_ Hi]].
        { eapply Hloc; eassumption. }
        apply list_lookup_singleton_Some in Hi as [_ <-].
        injection Ht as <-. exact Hl.
  - (* an awaited place call returns *)
    destruct (tasks s !! i) as [[l|l t1| |e]|] eqn:Hi; cbn;
      try (constructor; assumption).
    + assert (Hl : locals_ok cfg P l) by (eapply Hloc; [exact Hi|reflexivity]).
      destruct (try_trade_leg1_cases cfg P (bot s) i l u now Hl) as (t1 & ->). cbn.
      constructor; cbn; unfold legs_in_flight; cbn; try assumption.
      * pose proof (count_in_flight_insert _ _ _ (AwaitLeg2 l t1) Hi) as Hc.
        cbn in Hc. rewrite Hcnt. lia.
      * intros j t l' Hj Ht. apply list_lookup_insert_Some in Hj as [(_ & <- & _)|[_ Hj]].
        { injection Ht as <-. exact Hl. }
        eapply Hloc; eassumption.
    + assert (Hl : locals_ok cfg P l) by (eapply Hloc; [exact Hi|reflexivity]).
      destruct (try_trade_leg2_cases cfg P (bot s) i l t1 u now now' Hl) as (t2 & ->).
      pose proof (count_in_flight_insert _ _ _ Returned Hi) as Hc. cbn in Hc.
      assert (Hloc' : forall j t l', <[i := Returned]> (tasks s) !! j = Some t ->
                task_locals t = Some l' -> locals_ok cfg P l').
      { intros j t l' Hj Ht. apply list_lookup_insert_Some in Hj as [(_ & <- & _)|[_ Hj]].
        { discriminate. }
        eapply Hloc; eassumption. }
      destruct (accepted t1 && accepted t2); cbn;
        constructor; cbn; unfold legs_in_flight; cbn; try assumption; try lia.
      apply Forall_app. split; [exact Htr|].
      constructor; [|constructor]. exists l, now'. split; [reflexivity|exact Hl].
Qed.

Lemma run_cons cfg s e es :
  run cfg s (e :: es)
  = ((run cfg (step cfg s e).1 es).1, (step cfg s e).2 ++ (run cfg (step cfg s e).1 es).2).
Proof.
  cbn [run]. destruct (step cfg s e) as [s1 o1]. cbn.
  destruct (run cfg s1 es) as [s2 o2]. reflexivity.
Qed.

Lemma sys_inv_run cfg P es :
  forall s, sys_inv cfg P s -> Forall (event_ok P) es -> sys_inv cfg P (run cfg s es).1.
Proof.
  induction es as [|e es IH]; intros s Hs Hes; [exact Hs|].
  apply Forall_cons_1 in Hes as [He Hes].
  rewrite run_cons. cbn. apply IH; [|exact Hes].
  apply sys_inv_step; assumption.
Qed.

Lemma events_ok_any es : Forall (event_ok (fun _ => True)) es.
Proof.
  apply Forall_forall. intros [qs| |] _; cbn; [|exact I|exact I].
  apply Forall_forall. intros; exact I.
Qed.

(** ** Arithmetic of a solved opportunity *)

Section SolvedLocals.
Variables (cfg : Config) (P : Q -> Prop) (l : Locals).
Hypothesis Hl : locals_ok cfg P l.

Lemma locals_sum : l_SA l + l_SB l == TOTAL_OUTLAY cfg.
Proof. rewrite (lk_SB _ _ _ Hl). ring. Qed.

Lemma locals_payoff : l_SA l * l_oA l == l_SB l * l_oB l.
Proof.
  rewrite (lk_SB _ _ _ Hl), (lk_SA _ _ _ Hl). field. exact (lk_sum _ _ _ Hl).
Qed.

Lemma locals_locked_formula :
  l_locked l ==
  TOTAL_OUTLAY cfg * (l_oA l * l_oB l - l_oA l - l_oB l) / (l_oA l + l_oB l).
Proof.
  rewrite (lk_locked _ _ _ Hl), (lk_SB _ _ _ Hl), (lk_SA _ _ _ Hl).
  field. exact (lk_sum _ _ _ Hl).
Qed.

Lemma locals_margin_pos :
  0 < l_oA l -> 0 < l_oB l -> 0 < l_oA l * l_oB l - l_oA l - l_oB l.
Proof.
  intros HA HB.
  assert (Hprod : 0 < l_oA l * l_oB l) by (apply Qmult_lt_0_compat; assumption).
  assert (Heq : edge_of (l_oA l) (l_oB l) * (l_oA l * l_oB l)
                == l_oA l * l_oB l - l_oA l - l_oB l).
  { unfold edge_of. field. split; [exact (lk_oB _ _ _ Hl)|exact (lk_oA _ _ _ Hl)]. }
  rewrite <- Heq. apply Qmult_lt_0_compat; [exact (lk_edge_pos _ _ _ Hl)|exact Hprod].
Qed.

Lemma locals_locked_pos :
  0 < TOTAL_OUTLAY cfg -> 0 < l_oA l -> 0 < l_oB l -> 0 < l_locked l.
Proof.
  intros HT HA HB. rewrite locals_locked_formula.
  apply Qlt_shift_div_l; [lra|]. rewrite Qmult_0_l.
  apply Qmult_lt_0_compat; [exact HT|apply locals_margin_pos; assumption].
Qed.
End SolvedLocals.

Lemma floor_price_ge (x : Q) : 1.05 <= floor_price x.
Proof.
  unfold floor_price. destruct (Qle_bool 1.05 x) eqn:E.
  - apply Qle_bool_iff, E.
  - lra.
Qed.

Lemma feed_quote_positive bk ev sd x ts : 0 < decimal (feed_quote bk ev sd x ts).
Proof.
  cbn. pose proof (floor_price_ge x). lra.
Qed.

(** ** The concurrency cap *)

(** C2: with [MAX_CONCURRENT = N] (a count, so [0 <= N]), in every
    reachable state the open-trade counter is the number of attempts
    with legs in flight, neither exceeds [N], and a call of [try_trade]
    that finds the counter at or above [N] returns without placing. *)
Theorem concurrency_cap (cfg : Config) (es : list Event) :
  (0 <= MAX_CONCURRENT cfg)%Z ->
  let s := (run cfg init es).1 in
  open_trades (bot s) = Z.of_nat (legs_in_flight s) /\
  (Z.of_nat (legs_in_flight s) <= MAX_CONCURRENT cfg)%Z /\
  (open_trades (bot s) <= MAX_CONCURRENT cfg)%Z /\
  (forall ev,
      (MAX_CONCURRENT cfg <= open_trades (bot s))%Z ->
      step cfg s (Tick ev) = ({| bot := bot s; tasks := tasks s ++ [Returned] |}, [])).
Proof.
  intros HN s.
  destruct (sys_inv_run cfg (fun _ => True) es init (sys_inv_init _ _) (events_ok_any es))
    as [Hcnt Hcap _ _ _].
  fold s in Hcnt, Hcap.
  split; [exact Hcnt|]. split; [lia|]. split; [lia|].
  intros ev Hfull. cbn [step]. unfold try_trade_start.
  apply Z.leb_le in Hfull. rewrite Hfull. reflexivity.
Qed.

Lemma concurrency_cap_witness :
  let s := (run default_config init burst_events).1 in
  open_trades (bot s) = Z.of_nat (legs_in_flight s) /\
  (Z.of_nat (legs_in_flight s) <= MAX_CONCURRENT default_config)%Z /\
  (open_trades (bot s) <= MAX_CONCURRENT default_config)%Z /\
  (forall ev,
      (MAX_CONCURRENT default_config <= open_trades (bot s))%Z ->
      step default_config s (Tick ev)
      = ({| bot := bot s; tasks := tasks s ++ [Returned] |}, [])).
Proof.
  apply (concurrency_cap default_config burst_events). cbn. lia.
Defined.

(** The cap is reached: of three calls in a row the third is skipped. *)
Example burst_fills_the_cap :
  open_trades (bot (run default_config init burst_events).1) = 2%Z /\
  (run default_config init burst_events).2
  = [Opened 0; PlaceBegin 0 LegA; Opened 1; PlaceBegin 1 LegA].
Proof.
  split; vm_compute; reflexivity.
Qed.

(** ** The ledger *)

(** C7, as stated, fails: the sample run appends a trade whose stakes
    add up to the outlay but with [stake_A * (oA - 1)] different from
    [stake_B]; the difference is the locked profit. *)
Lemma sample_trade_not_stake_B :
  exists tr,
    trades (bot sample_run.1) = [tr] /\
    stake_A tr + stake_B tr == TOTAL_OUTLAY default_config /\
    stake_B tr < stake_A tr * (oA tr - 1) /\
    ~ stake_A tr * (oA tr - 1) == stake_B tr.
Proof.
  eexists. split; [vm_compute; reflexivity|].
  split; [vm_compute; reflexivity|].
  split; [vm_compute; reflexivity|].
  vm_compute. discriminate.
Qed.

(** C7, amended: every trade in the ledger of a reachable state has
    stakes that add up to the outlay, [stake_A + stake_B == total_outlay]
    (within floating-point tolerance in the program; exactly in the
    rational arithmetic of this statement), and [stake_A * (oA - 1) -
    stake_B] is the trade's locked profit rather than zero.  In rational
    arithmetic the two payouts are equal, [stake_A * oA == stake_B * oB]
    (in the program, equal within floating-point tolerance). *)
Theorem ledger_trades_equalized (cfg : Config) (es : list Event) :
  Forall (fun tr =>
            stake_A tr + stake_B tr == TOTAL_OUTLAY cfg /\
            stake_A tr * oA tr == stake_B tr * oB tr /\
            stake_A tr * (oA tr - 1) - stake_B tr == profit_locked tr)
         (trades (bot (run cfg init es).1)).
Proof.
  destruct (sys_inv_run cfg (fun _ => True) es init (sys_inv_init _ _) (events_ok_any es))
    as [_ _ _ _ Htr].
  eapply Forall_impl; [exact Htr|].
  intros tr (l & now & -> & Hl). cbn.
  split; [exact (locals_sum _ _ _ Hl)|]. split; [exact (locals_payoff _ _ _ Hl)|].
  rewrite (lk_locked _ _ _ Hl). reflexivity.
Qed.

(** C10: with a positive outlay and a feed that publishes positive
    prices, every trade in the ledger of a reachable state has a
    strictly positive locked profit, [roi == profit_locked / TOTAL_OUTLAY],
    and [profit_locked == T * (oA * oB - oA - oB) / (oA + oB)]; its edge
    is positive and at least [MIN_ARBITRAGE_EDGE]. *)
Theorem ledger_trades_profitable (cfg : Config) (es : list Event) :
  0 < TOTAL_OUTLAY cfg ->
  Forall (event_ok (fun o => 0 < o)) es ->
  Forall (fun tr =>
            0 < profit_locked tr /\
            roi tr == profit_locked tr / TOTAL_OUTLAY cfg /\
            profit_locked tr ==
              TOTAL_OUTLAY cfg * (oA tr * oB tr - oA tr - oB tr) / (oA tr + oB tr) /\
            0 < 1 - (1 / oA tr + 1 / oB tr) /\
            MIN_ARBITRAGE_EDGE cfg <= 1 - (1 / oA tr + 1 / oB tr))
         (trades (bot (run cfg init es).1)).
Proof.
  intros HT Hes.
  destruct (sys_inv_run cfg (fun o => 0 < o) es init (sys_inv_init _ _) Hes)
    as [_ _ _ _ Htr].
  eapply Forall_impl; [exact Htr|].
  intros tr (l & now & -> & Hl). cbn.
  split.
  { apply (locals_locked_pos _ _ _ Hl HT); [exact (lk_PA _ _ _ Hl)|exact (lk_PB _ _ _ Hl)]. }
  split; [rewrite (lk_roi _ _ _ Hl); reflexivity|].
  split; [exact (locals_locked_formula _ _ _ Hl)|].
  split; [exact (lk_edge_pos _ _ _ Hl)|exact (lk_edge_min _ _ _ Hl)].
Qed.

Lemma sample_events_positive : Forall (event_ok (fun o => 0 < o)) sample_events.
Proof.
  repeat constructor; apply feed_quote_positive.
Qed.

Lemma ledger_trades_profitable_witness :
  Forall (fun tr =>
            0 < profit_locked tr /\
            roi tr == profit_locked tr / TOTAL_OUTLAY default_config /\
            profit_locked tr ==
              TOTAL_OUTLAY default_config * (oA tr * oB tr - oA tr - oB tr)
              / (oA tr + oB tr) /\
            0 < 1 - (1 / oA tr + 1 / oB tr) /\
            MIN_ARBITRAGE_EDGE default_config <= 1 - (1 / oA tr + 1 / oB tr))
         (trades (bot (run default_config init sample_events).1)).
Proof.
  apply (ledger_trades_profitable default_config sample_events).
  - reflexivity.
  - exact sample_events_positive.
Defined.

(** The ledger of the sample run is not empty. *)
Example sample_ledger_size : length (trades (bot sample_run.1)) = 1%nat.
Proof. vm_compute. reflexivity. Qed.

(** ** One attempt on its own *)

Lemma run_app cfg es1 es2 :
  forall s,
    run cfg s (es1 ++ es2)
    = ((run cfg (run cfg s es1).1 es2).1, (run cfg s es1).2 ++ (run cfg (run cfg s es1).1 es2).2).
Proof.
  induction es1 as [|e es1 IH]; intros s.
  - cbn. destruct (run cfg s es2); reflexivity.
  - rewrite <- app_comm_cons, !run_cons, IH. cbn. now rewrite app_assoc.
Qed.

Lemma publish_all_open b pubs : open_trades (publish_all b pubs) = open_trades b.
Proof.
  revert b. induction pubs as [|qs pubs IH]; intros b; [reflexivity|].
  cbn. unfold publish_all in IH. now rewrite IH.
Qed.

Lemma publish_all_trades b pubs : trades (publish_all b pubs) = trades b.
Proof.
  revert b. induction pubs as [|qs pubs IH]; intros b; [reflexivity|].
  cbn. unfold publish_all in IH. now rewrite IH.
Qed.

Lemma run_publish cfg pubs :
  forall s,
    run cfg s (map Publish pubs) = ({| bot := publish_all (bot s) pubs; tasks := tasks s |}, []).
Proof.
  induction pubs as [|qs pubs IH]; intros s.
  - cbn. now destruct s.
  - cbn [map]. rewrite run_cons, IH. reflexivity.
Qed.

Lemma store_ok_any b : store_ok (fun _ => True) b.
Proof. intros k q _. exact I. Qed.

(** The shape of an attempt: either no leg is placed and the ledger and
    the counter are untouched, or the log is the fixed sequence below. *)
Lemma attempt_cases cfg b ev pubs1 u1 now1 pubs2 u2 now2 now2' :
  let r := attempt cfg b ev pubs1 u1 now1 pubs2 u2 now2 now2' in
  (r.2 = [] /\ trades (bot r.1) = trades b /\ open_trades (bot r.1) = open_trades b) \/
  (exists l t1 t2,
      locals_ok cfg (fun _ => True) l /\
      r.2 = attempt_log (accepted t1) (accepted t2) /\
      trades (bot r.1)
      = trades b ++ (if accepted t1 && accepted t2 then [trade_of l now2'] else []) /\
      open_trades (bot r.1) = open_trades b).
Proof.
  unfold attempt, attempt_events, attempt_log. rewrite run_cons.
  rewrite run_app, run_publish, run_cons, run_app, run_publish. cbn [fst snd app].
  cbn [step tasks bot length app].
  destruct (try_trade_start_cases cfg (fun _ => True) b 0 ev (store_ok_any b))
    as [[-> _]|[[e ->]|(l & -> & _ & Hl & _)]]; cbn.
  - left. rewrite !publish_all_trades, !publish_all_open. auto.
  - left. rewrite !publish_all_trades, !publish_all_open. auto.
  - destruct (try_trade_leg1_cases cfg (fun _ => True)
                (publish_all (set_open b (open_trades b + 1)) pubs1) 0 l u1 now1 Hl)
      as (t1 & ->). cbn.
    match goal with |- context [try_trade_leg2 ?b0 0 l t1 u2 now2 now2'] =>
      destruct (try_trade_leg2_cases cfg (fun _ => True) b0 0 l t1 u2 now2 now2' Hl)
        as (t2 & ->) end.
    right. exists l, t1, t2. split; [exact Hl|].
    destruct (accepted t1 && accepted t2); cbn;
      rewrite ?publish_all_trades, ?publish_all_open; cbn;
      rewrite ?publish_all_trades, ?publish_all_open; cbn;
      (split; [reflexivity|]); (split; [try rewrite app_nil_r; reflexivity|]); lia.
Qed.

Lemma attempt_log_no_overlap a1 a2 : ~ legs_overlap (attempt_log a1 a2) 0.
Proof.
  intros (pre & a & post & Heq & Hin). unfold attempt_log in Heq.
  destruct pre as [|p0 [|p1 [|p2 [|p3 pre']]]]; cbn in Heq, Hin.
  - exact Hin.
  - discriminate Heq.
  - inversion Heq; subst. destruct Hin as [H|[H|[]]]; discriminate H.
  - discriminate Heq.
  - injection Heq as _ _ _ _ Heq.
    assert (Hmem : In (PlaceResolve 0 LegA a)
                      (PlaceResolve 0 LegB a2 :: Closed 0
                       :: (if a1 && a2 then [Appended 0] else []))).
    { rewrite Heq. apply in_elt. }
    destruct Hmem as [H|[H|Hmem]]; [discriminate H|discriminate H|].
    destruct (a1 && a2); [destruct Hmem as [H|[]]; discriminate H|destruct Hmem].
Qed.

(** ** The two legs of an attempt *)

(** C1, as stated, fails: in the sample run the second leg's placement
    begins after the first leg's placement has resolved. *)
Lemma sample_legs_do_not_overlap :
  sample_run.2 = [Opened 0; PlaceBegin 0 LegA; PlaceResolve 0 LegA true;
                  PlaceBegin 0 LegB; PlaceResolve 0 LegB true; Closed 0; Appended 0] /\
  ~ legs_overlap sample_run.2 0.
Proof.
  assert (Hlog : sample_run.2 = attempt_log true true) by (vm_compute; reflexivity).
  split; [exact Hlog|]. rewrite Hlog. apply attempt_log_no_overlap.
Qed.

(** C1, amended: in every trade attempt that places its legs, the two
    [place] calls run one after the other: the log of the attempt is
    open, begin leg A, resolve leg A, begin leg B, resolve leg B, close
    (then the append when both tickets are accepted); the second leg
    never begins before the first has resolved. *)
Theorem legs_placed_in_sequence (cfg : Config) (b : Bot) (ev : string)
    (pubs1 : list (list Quote)) (u1 : Q) (now1 : Z)
    (pubs2 : list (list Quote)) (u2 : Q) (now2 now2' : Z) :
  let obs := (attempt cfg b ev pubs1 u1 now1 pubs2 u2 now2 now2').2 in
  (obs = [] \/
   exists a1 a2,
     obs = [Opened 0; PlaceBegin 0 LegA; PlaceResolve 0 LegA a1;
            PlaceBegin 0 LegB; PlaceResolve 0 LegB a2; Closed 0]
           ++ (if a1 && a2 then [Appended 0] else [])) /\
  ~ legs_overlap obs 0.
Proof.
  intros obs. subst obs.
  destruct (attempt_cases cfg b ev pubs1 u1 now1 pubs2 u2 now2 now2')
    as [(Hlog & _)|(l & t1 & t2 & _ & Hlog & _)]; rewrite Hlog.
  - split; [now left|].
    intros (pre & a & post & Heq & _). destruct pre; discriminate Heq.
  - split; [right; exists (accepted t1), (accepted t2); reflexivity|].
    apply attempt_log_no_overlap.
Qed.

(** ** Rejected legs *)

Lemma attempt_log_tickets a1 a2 b1 b2 :
  In (PlaceResolve 0 LegA b1) (attempt_log a1 a2) ->
  In (PlaceResolve 0 LegB b2) (attempt_log a1 a2) ->
  b1 = a1 /\ b2 = a2.
Proof.
  unfold attempt_log. intros H1 H2. split.
  - destruct H1 as [H|[H|[H|[H|[H|[H|H]]]]]]; try discriminate H.
    + now injection H.
    + destruct (a1 && a2); [destruct H as [H|[]]; discriminate H|destruct H].
  - destruct H2 as [H|[H|[H|[H|[H|[H|H]]]]]]; try discriminate H.
    + now injection H.
    + destruct (a1 && a2); [destruct H as [H|[]]; discriminate H|destruct H].
Qed.

(** C3: in every trade attempt in which one of the two tickets is not
    accepted, no trade is appended to the ledger and the open-trade
    counter is back at its value before the attempt. *)
Theorem rejected_leg_releases_slot (cfg : Config) (b : Bot) (ev : string)
    (pubs1 : list (list Quote)) (u1 : Q) (now1 : Z)
    (pubs2 : list (list Quote)) (u2 : Q) (now2 now2' : Z) (a1 a2 : bool) :
  let r := attempt cfg b ev pubs1 u1 now1 pubs2 u2 now2 now2' in
  In (PlaceResolve 0 LegA a1) r.2 ->
  In (PlaceResolve 0 LegB a2) r.2 ->
  a1 && a2 = false ->
  trades (bot r.1) = trades b /\
  open_trades (bot r.1) = open_trades b /\
  ~ In (Appended 0) r.2.
Proof.
  intros r H1 H2 Hrej. subst r.
  destruct (attempt_cases cfg b ev pubs1 u1 now1 pubs2 u2 now2 now2')
    as [(Hlog & Htr & Hopen)|(l & t1 & t2 & _ & Hlog & Htr & Hopen)].
  - rewrite Hlog in H1. destruct H1.
  - rewrite Hlog in H1, H2 |- *.
    destruct (attempt_log_tickets _ _ _ _ H1 H2) as [-> ->].
    rewrite Htr. unfold attempt_log. rewrite Hrej.
    split; [apply app_nil_r|]. split; [exact Hopen|].
    intros Hin. cbn in Hin.
    repeat (destruct Hin as [H|Hin]; [discriminate H|]). exact Hin.
Qed.

Lemma rejected_leg_releases_slot_witness :
  let r := attempt default_config wide_edge_bot "EVT1" [] 0.5 100 [] 0.01 200 201 in
  trades (bot r.1) = trades wide_edge_bot /\
  open_trades (bot r.1) = open_trades wide_edge_bot /\
  ~ In (Appended 0) r.2.
Proof.
  apply (rejected_leg_releases_slot default_config wide_edge_bot "EVT1"
           [] 0.5 100 [] 0.01 200 201 true false).
  - vm_compute. right. right. left. reflexivity.
  - vm_compute. right. right. right. right. left. reflexivity.
  - reflexivity.
Defined.

(** * Further properties of the script *)

(** ** Odds conversions *)

Lemma inject_Z_nonzero (z : Z) : z <> 0%Z -> ~ inject_Z z == 0.
Proof.
  intros Hz. unfold Qeq. cbn [Qnum Qden inject_Z]. lia.
Qed.

Lemma inject_Z_pos (z : Z) : (0 < z)%Z -> 0 < inject_Z z.
Proof.
  intros Hz. unfold Qlt. cbn [Qnum Qden inject_Z]. lia.
Qed.

Lemma inject_Z_le_Q (x y : Z) : (x <= y)%Z -> inject_Z x <= inject_Z y.
Proof.
  intros H. unfold Qle. cbn [Qnum Qden inject_Z]. lia.
Qed.

Lemma Qdiv_pos (a b : Q) : 0 < a -> 0 < b -> 0 < a / b.
Proof.
  intros Ha Hb. apply Qlt_shift_div_l; [exact Hb|]. rewrite Qmult_0_l. exact Ha.
Qed.

Lemma dec_from_american_pos (a : Z) :
  (0 < a)%Z -> dec_from_american a = Ok (1 + inject_Z a / 100).
Proof.
  intros Ha. unfold dec_from_american.
  apply Z.ltb_lt in Ha. rewrite Ha. reflexivity.
Qed.

Lemma dec_from_american_neg (a : Z) :
  (a < 0)%Z -> dec_from_american a = Ok (1 + 100 / inject_Z (Z.abs a)).
Proof.
  intros Ha. unfold dec_from_american.
  assert (H : (0 <? a)%Z = false) by (apply Z.ltb_ge; lia). rewrite H.
  rewrite fdiv_ok by (apply inject_Z_nonzero; lia). reflexivity.
Qed.

(** X1: [dec_from_american] raises [ZeroDivisionError] on the line 0;
    on every other line of magnitude at most 10^15 it raises nothing and
    returns decimal odds strictly above 1, at least 2 for an underdog
    line [a >= 100] and at most 2 for a favourite line [a <= -100]
    (proved in rational arithmetic; within that magnitude the rounded
    sum [1.0 + x] stays strictly above 1 and no conversion overflows). *)
Theorem dec_from_american_range (a : Z) :
  (a = 0%Z -> dec_from_american a = Raise ZeroDivisionError) /\
  (a <> 0%Z -> (Z.abs a <= 10 ^ 15)%Z ->
   exists d, dec_from_american a = Ok d /\ 1 < d /\
             ((100 <= a)%Z -> 2 <= d) /\
             ((a <= -100)%Z -> d <= 2)).
Proof.
  split.
  - intros ->. reflexivity.
  - intros Ha _. destruct (Z.lt_trichotomy a 0) as [Hneg|[H0|Hpos]]; [|contradiction|].
    + rewrite (dec_from_american_neg a Hneg). eexists. split; [reflexivity|].
      assert (Habs : 0 < inject_Z (Z.abs a)) by (apply inject_Z_pos; lia).
      pose proof (Qdiv_pos 100 _ eq_refl Habs) as Hq.
      split; [lra|]. split; [lia|].
      intros Hfav.
      assert (Hle : 100 / inject_Z (Z.abs a) <= 1).
      { apply Qle_shift_div_r; [exact Habs|]. rewrite Qmult_1_l.
        change 100 with (inject_Z 100). apply inject_Z_le_Q. lia. }
      lra.
    + rewrite (dec_from_american_pos a Hpos). eexists. split; [reflexivity|].
      assert (Hq : 0 < inject_Z a) by (apply inject_Z_pos; exact Hpos).
      pose proof (Qdiv_pos _ 100 Hq eq_refl) as Hd.
      split; [lra|]. split; [|lia].
      intros Hdog.
      assert (Hle : 1 <= inject_Z a / 100).
      { apply Qle_shift_div_l; [reflexivity|]. rewrite Qmult_1_l.
        change 100 with (inject_Z 100). apply inject_Z_le_Q. exact Hdog. }
      lra.
Qed.

(** X2: for a line [a > 0], the implied probabilities of the two
    opposite lines [+a] and [-a] are [100 / (a + 100)] and
    [a / (a + 100)]: both lie strictly between 0 and 1 and they add up
    to exactly 1. *)
Theorem american_lines_complement (a : Z) :
  (0 < a)%Z ->
  exists d1 d2 p1 p2,
    dec_from_american a = Ok d1 /\ dec_from_american (- a) = Ok d2 /\
    imp_prob_from_dec d1 = Ok p1 /\ imp_prob_from_dec d2 = Ok p2 /\
    p1 == 100 / (inject_Z a + 100) /\
    p2 == inject_Z a / (inject_Z a + 100) /\
    0 < p1 /\ p1 < 1 /\ 0 < p2 /\ p2 < 1 /\
    p1 + p2 == 1.
Proof.
  intros Ha.
  assert (Hq : 0 < inject_Z a) by (apply inject_Z_pos; exact Ha).
  assert (Hnz : ~ inject_Z a == 0) by lra.
  assert (Hs : ~ inject_Z a + 100 == 0) by lra.
  rewrite (dec_from_american_pos a Ha).
  rewrite (dec_from_american_neg (- a)) by lia.
  replace (Z.abs (- a)) with a by lia.
  assert (Hd1 : 0 < inject_Z a / 100) by (apply Qdiv_pos; [exact Hq|reflexivity]).
  assert (Hd2 : 0 < 100 / inject_Z a) by (apply Qdiv_pos; [reflexivity|exact Hq]).
  assert (E1 : 1 / (1 + inject_Z a / 100) == 100 / (inject_Z a + 100)).
  { field. exact Hs. }
  assert (E2 : 1 / (1 + 100 / inject_Z a) == inject_Z a / (inject_Z a + 100)).
  { field. split; [exact Hs|exact Hnz]. }
  assert (B1 : 0 < 100 / (inject_Z a + 100)) by (apply Qdiv_pos; lra).
  assert (B2 : 0 < inject_Z a / (inject_Z a + 100)) by (apply Qdiv_pos; lra).
  assert (Esum : 100 / (inject_Z a + 100) + inject_Z a / (inject_Z a + 100) == 1).
  { field. exact Hs. }
  exists (1 + inject_Z a / 100), (1 + 100 / inject_Z a),
         (1 / (1 + inject_Z a / 100)), (1 / (1 + 100 / inject_Z a)).
  split; [reflexivity|]. split; [reflexivity|].
  unfold imp_prob_from_dec. rewrite !fdiv_ok by lra.
  split; [reflexivity|]. split; [reflexivity|].
  split; [exact E1|]. split; [exact E2|].
  rewrite E1, E2. repeat split; lra.
Qed.

Lemma american_lines_complement_witness :
  exists d1 d2 p1 p2,
    dec_from_american 150 = Ok d1 /\ dec_from_american (- 150) = Ok d2 /\
    imp_prob_from_dec d1 = Ok p1 /\ imp_prob_from_dec d2 = Ok p2 /\
    p1 == 100 / (inject_Z 150 + 100) /\
    p2 == inject_Z 150 / (inject_Z 150 + 100) /\
    0 < p1 /\ p1 < 1 /\ 0 < p2 /\ p2 < 1 /\
    p1 + p2 == 1.
Proof.
  apply (american_lines_complement 150). lia.
Defined.


(** ** More on the stake solver *)

Lemma pos_scale (k x y : Q) : 0 < k -> y == k * x -> (0 < y <-> 0 < x).
Proof.
  intros Hk Hy. rewrite Hy. split; intros H.
  - destruct (Qlt_le_dec 0 x) as [Hx|Hx]; [exact Hx|exfalso].
    assert (Hle : k * x <= k * 0) by (apply Qmult_le_l; assumption).
    rewrite Qmult_0_r in Hle. lra.
  - apply Qmult_lt_0_compat; assumption.
Qed.

Lemma solve_equalized_stakes_ok (o_A o_B T : Q) :
  ~ o_A + o_B == 0 ->
  solve_equalized_stakes o_A o_B T
  = Ok (T * o_B / (o_A + o_B),
        T - T * o_B / (o_A + o_B),
        T * o_B / (o_A + o_B) * (o_A - 1) - (T - T * o_B / (o_A + o_B))).
Proof.
  intros Hs. unfold solve_equalized_stakes. rewrite (fdiv_ok _ _ Hs). reflexivity.
Qed.

(** X4: the solver raises [ZeroDivisionError] exactly when the two
    prices add up to zero; otherwise, in exact rational arithmetic, the
    locked profit it returns is the payout of either leg minus the total
    outlay, whichever side wins:
    [locked == SA * oA - total == SB * oB - total] (in the program the
    three numbers agree up to floating-point rounding). *)
Theorem solve_locked_is_profit (o_A o_B T : Q) :
  (o_A + o_B == 0 -> solve_equalized_stakes o_A o_B T = Raise ZeroDivisionError) /\
  (~ o_A + o_B == 0 ->
   exists SA SB locked,
     solve_equalized_stakes o_A o_B T = Ok (SA, SB, locked) /\
     locked == SA * o_A - T /\
     locked == SB * o_B - T).
Proof.
  split.
  - intros Hz. unfold solve_equalized_stakes. rewrite (fdiv_zero _ _ Hz). reflexivity.
  - intros Hs. rewrite (solve_equalized_stakes_ok _ _ _ Hs).
    eexists _, _, _. split; [reflexivity|]. split; field; exact Hs.
Qed.

(** X5: in exact rational arithmetic, for positive prices and a
    positive outlay both stakes are strictly between 0 and the outlay,
    the larger stake goes on the shorter price ([SB <= SA] exactly when
    [oA <= oB]), and the locked profit is positive exactly when the
    implied probabilities add up to less than 1 (at the boundary the
    program's rounded result can differ from 0 by rounding error). *)
Theorem solve_stakes_positive (o_A o_B T : Q) :
  0 < o_A -> 0 < o_B -> 0 < T ->
  exists SA SB locked,
    solve_equalized_stakes o_A o_B T = Ok (SA, SB, locked) /\
    0 < SA /\ SA < T /\ 0 < SB /\ SB < T /\
    (SB <= SA <-> o_A <= o_B) /\
    (0 < locked <-> 1 / o_A + 1 / o_B < 1).
Proof.
  intros HA HB HT.
  assert (Hs : ~ o_A + o_B == 0) by lra.
  rewrite (solve_equalized_stakes_ok _ _ _ Hs).
  eexists _, _, _. split; [reflexivity|].
  set (k := T / (o_A + o_B)).
  assert (Hk : 0 < k) by (apply Qdiv_pos; lra).
  assert (ESA : T * o_B / (o_A + o_B) == k * o_B) by (unfold k; field; exact Hs).
  assert (ESB : T - T * o_B / (o_A + o_B) == k * o_A) by (unfold k; field; exact Hs).
  assert (ET : T == k * o_A + k * o_B) by (unfold k; field; exact Hs).
  assert (PA : 0 < k * o_A) by (apply Qmult_lt_0_compat; assumption).
  assert (PB : 0 < k * o_B) by (apply Qmult_lt_0_compat; assumption).
  split; [lra|]. split; [lra|]. split; [lra|]. split; [lra|]. split.
  - rewrite ESB, ESA. apply Qmult_le_l. exact Hk.
  - assert (Hprod : 0 < o_A * o_B) by (apply Qmult_lt_0_compat; assumption).
    assert (EL : T * o_B / (o_A + o_B) * (o_A - 1) - (T - T * o_B / (o_A + o_B))
                 == k * (o_A * o_B - o_A - o_B)) by (unfold k; field; exact Hs).
    assert (EE : o_A * o_B - o_A - o_B
                 == (o_A * o_B) * (1 - (1 / o_A + 1 / o_B))) by (field; split; lra).
    rewrite (pos_scale _ _ _ Hk EL), (pos_scale _ _ _ Hprod EE).
    split; intros H; lra.
Qed.

Lemma solve_stakes_positive_witness :
  exists SA SB locked,
    solve_equalized_stakes 2.00 2.05 200 = Ok (SA, SB, locked) /\
    0 < SA /\ SA < 200 /\ 0 < SB /\ SB < 200 /\
    (SB <= SA <-> 2.00 <= 2.05) /\
    (0 < locked <-> 1 / 2.00 + 1 / 2.05 < 1).
Proof.
  apply (solve_stakes_positive 2.00 2.05 200); reflexivity.
Defined.

(** ** The quote store *)

Lemma on_quotes_snoc b qs q :
  quotes (on_quotes b (qs ++ [q])) = <[quote_key q := q]> (quotes (on_quotes b qs)).
Proof.
  unfold on_quotes. cbn [quotes]. rewrite foldl_snoc. reflexivity.
Qed.

(** X6: the store is last-write-wins per [(book, side)] key: after a
    batch, a key holds the last quote of the batch published under it,
    and a key the batch does not mention holds what it held before; in
    particular no entry is ever deleted. *)
Theorem on_quotes_last_write_wins (b : Bot) (qs : list Quote) (k : string * string) :
  quotes (on_quotes b qs) !! k
  = match last_quote_for k qs with
    | Some q => Some q
    | None => quotes b !! k
    end /\
  (is_Some (quotes b !! k) -> is_Some (quotes (on_quotes b qs) !! k)).
Proof.
  assert (Hlook : quotes (on_quotes b qs) !! k
                  = match last_quote_for k qs with
                    | Some q => Some q
                    | None => quotes b !! k
                    end).
  { induction qs as [|q qs IH] using rev_ind; [reflexivity|].
    rewrite on_quotes_snoc. unfold last_quote_for. rewrite rev_unit. cbn [List.find].
    destruct (bool_decide (quote_key q = k)) eqn:E.
    - apply bool_decide_eq_true in E. rewrite E. apply lookup_insert_eq.
    - apply bool_decide_eq_false in E. rewrite lookup_insert_ne by exact E.
      exact IH. }
  split; [exact Hlook|].
  rewrite Hlook. destruct (last_quote_for k qs); [eauto|auto].
Qed.

Lemma try_trade_start_quotes cfg b i ev :
  quotes (try_trade_start cfg b i ev).1.1 = quotes b.
Proof.
  unfold try_trade_start. repeat case_match; reflexivity.
Qed.

Lemma try_trade_leg1_quotes b i l u now :
  quotes (try_trade_leg1 b i l u now).1.1 = quotes b.
Proof.
  unfold try_trade_leg1. repeat case_match; reflexivity.
Qed.

Lemma try_trade_leg2_quotes b i l t1 u now now' :
  quotes (try_trade_leg2 b i l t1 u now now').1.1 = quotes b.
Proof.
  unfold try_trade_leg2. repeat case_match; reflexivity.
Qed.

Lemma step_quotes cfg s e :
  quotes (bot (step cfg s e).1)
  = match e with
    | Publish qs => quotes (on_quotes (bot s) qs)
    | _ => quotes (bot s)
    end.
Proof.
  destruct e as [qs|ev|i u now now']; cbn [step].
  - reflexivity.
  - pose proof (try_trade_start_quotes cfg (bot s) (length (tasks s)) ev) as H.
    destruct (try_trade_start cfg (bot s) (length (tasks s)) ev) as [[b' t] o]. exact H.
  - destruct (tasks s !! i) as [[l|l t1| |e]|]; try reflexivity.
    + pose proof (try_trade_leg1_quotes (bot s) i l u now) as H.
      destruct (try_trade_leg1 (bot s) i l u now) as [[b' t] o]. exact H.
    + pose proof (try_trade_leg2_quotes (bot s) i l t1 u now now') as H.
      destruct (try_trade_leg2 (bot s) i l t1 u now now') as [[b' t] o]. exact H.
Qed.

Lemma on_quotes_quotes_ext b1 b2 qs :
  quotes b1 = quotes b2 -> quotes (on_quotes b1 qs) = quotes (on_quotes b2 qs).
Proof.
  intros H. unfold on_quotes. cbn [quotes]. now rewrite H.
Qed.

Lemma publish_all_quotes_ext pubs :
  forall b1 b2, quotes b1 = quotes b2 ->
                quotes (publish_all b1 pubs) = quotes (publish_all b2 pubs).
Proof.
  induction pubs as [|qs pubs IH]; intros b1 b2 H; [exact H|].
  cbn. apply IH, on_quotes_quotes_ext, H.
Qed.

Lemma run_quotes cfg es :
  forall s, quotes (bot (run cfg s es).1) = quotes (publish_all (bot s) (published es)).
Proof.
  induction es as [|e es IH]; intros s; [reflexivity|].
  rewrite run_cons. cbn [fst]. rewrite IH.
  pose proof (step_quotes cfg s e) as Hq.
  destruct e as [qs|ev|i u now now']; cbn [published].
  - cbn [publish_all foldl]. apply publish_all_quotes_ext. exact Hq.
  - apply publish_all_quotes_ext. exact Hq.
  - apply publish_all_quotes_ext. exact Hq.
Qed.

(** X7: only the feed writes the store.  Whatever attempts are started
    and whatever tickets come back, the store of a reachable state is the
    one obtained by applying the published batches, in order, to the
    empty store. *)
Theorem store_is_fold_of_batches (cfg : Config) (es : list Event) :
  quotes (bot (run cfg init es).1) = quotes (publish_all new_bot (published es)).
Proof.
  apply (run_quotes cfg es init).
Qed.

Lemma publish_all_keys pubs :
  forall b,
    map_Forall (fun k q => k = quote_key q) (quotes b) ->
    map_Forall (fun k q => k = quote_key q) (quotes (publish_all b pubs)).
Proof.
  induction pubs as [|qs pubs IH]; intros b Hb; [exact Hb|].
  cbn. apply IH. clear IH.
  induction qs as [|q qs IHq] using rev_ind; [exact Hb|].
  rewrite on_quotes_snoc. apply map_Forall_insert_2; [reflexivity|exact IHq].
Qed.

(** X8: in every reachable state each entry of the store sits under its
    own key: the quote stored under [(bk, sd)] has book [bk] and side
    [sd]. *)
Theorem store_keys_consistent (cfg : Config) (es : list Event) :
  map_Forall (fun k q => k = (book q, side q)) (quotes (bot (run cfg init es).1)).
Proof.
  rewrite (run_quotes cfg es init).
  apply (publish_all_keys (published es) new_bot).
  unfold new_bot. cbn [quotes]. apply map_Forall_empty.
Qed.

(** ** The shock feed *)

Lemma floor_price_id (x : Q) : 1.05 <= x -> floor_price x = x.
Proof.
  intros H. unfold floor_price. apply Qle_bool_iff in H. now rewrite H.
Qed.

Lemma floor_price_above (x : Q) : x <= floor_price x.
Proof.
  unfold floor_price. destruct (Qle_bool 1.05 x) eqn:E; [lra|].
  apply Qle_bool_false in E. lra.
Qed.

(** The underdog's fair price [1 / (1 - 1 / fav)] for a favourite's
    price between 1.30 and 1.70. *)
Lemma dog_price_bounds (fav : Q) :
  in_range 1.30 1.70 fav ->
  ~ fav == 0 /\ ~ 1 - 1 / fav == 0 /\
  in_range (17 # 7) (13 # 3) (1 / (1 - 1 / fav)) /\
  1 / fav + 1 / (1 / (1 - 1 / fav)) == 1.
Proof.
  intros [Hlo Hhi].
  assert (Hnz : ~ fav == 0) by lra.
  assert (Hm : ~ fav - 1 == 0) by lra.
  assert (E1 : 1 - 1 / fav == (fav - 1) / fav) by (field; exact Hnz).
  assert (Hpos : 0 < (fav - 1) / fav) by (apply Qdiv_pos; lra).
  assert (Hd : ~ 1 - 1 / fav == 0) by (rewrite E1; lra).
  assert (E2 : 1 / (1 - 1 / fav) == fav / (fav - 1)) by (field; split; assumption).
  split; [exact Hnz|]. split; [exact Hd|]. split.
  - unfold in_range. rewrite E2. split.
    + apply Qle_shift_div_l; lra.
    + apply Qle_shift_div_r; lra.
  - field. split; assumption.
Qed.

(** X9: a shock whose favourite price is drawn from [1.30, 1.70] does
    not raise and leaves a fair book: the favoured side carries the
    drawn price, the other side a price between 17/7 and 13/3, and the
    two implied probabilities add up to exactly 1. *)
Theorem shock_leaves_fair_book (f : ShockFeed) (d : ShockDraws) (ts : Z) :
  in_range 1.30 1.70 (fav_dec d) ->
  exists f' bA bB,
    emit_shock_begin f d ts = Ok (f', bA, bB) /\
    feed_event_id f' = feed_event_id f /\
    (if fav_is_A d then fair_dec_A f' else fair_dec_B f') = fav_dec d /\
    in_range (17 # 7) (13 # 3) (if fav_is_A d then fair_dec_B f' else fair_dec_A f') /\
    1 / fair_dec_A f' + 1 / fair_dec_B f' == 1.
Proof.
  intros Hfav.
  destruct (dog_price_bounds _ Hfav) as (Hnz & Hd & Hdog & Hfair).
  unfold emit_shock_begin.
  rewrite (fdiv_ok _ _ Hnz). cbn [rbind]. rewrite (fdiv_ok _ _ Hd). cbn [rbind].
  assert (Hfl : floor_price (1 / (1 - 1 / fav_dec d)) = 1 / (1 - 1 / fav_dec d)).
  { apply floor_price_id. destruct Hdog as [Hlo _]. lra. }
  rewrite Hfl.
  eexists _, _, _. split; [reflexivity|].
  destruct (fav_is_A d); cbn.
  - split; [reflexivity|]. split; [reflexivity|]. split; [exact Hdog|exact Hfair].
  - split; [reflexivity|]. split; [reflexivity|]. split; [exact Hdog|].
    rewrite Qplus_comm. exact Hfair.
Qed.

Lemma shock_leaves_fair_book_witness :
  exists f' bA bB,
    emit_shock_begin (new_feed "EVT1") sample_draws 1 = Ok (f', bA, bB) /\
    feed_event_id f' = feed_event_id (new_feed "EVT1") /\
    (if fav_is_A sample_draws then fair_dec_A f' else fair_dec_B f') = fav_dec sample_draws /\
    in_range (17 # 7) (13 # 3)
             (if fav_is_A sample_draws then fair_dec_B f' else fair_dec_A f') /\
    1 / fair_dec_A f' + 1 / fair_dec_B f' == 1.
Proof.
  apply (shock_leaves_fair_book (new_feed "EVT1") sample_draws 1).
  split; vm_compute; discriminate.
Defined.

Lemma on_quotes_pair b q1 q2 :
  quotes (on_quotes b [q1; q2])
  = <[quote_key q2 := q2]> (<[quote_key q1 := q1]> (quotes b)).
Proof. reflexivity. Qed.

Lemma pairing_odds_lookup (qm : gmap (string * string) Quote) k1 k2 q1 q2 :
  qm !! k1 = Some q1 -> qm !! k2 = Some q2 ->
  pairing_odds qm (k1, k2) = Some (decimal q1, decimal q2).
Proof.
  intros H1 H2. unfold pairing_odds. cbn [fst snd]. now rewrite H1, H2.
Qed.

Lemma Qinv_le_of_le (lo o : Q) : 0 < lo -> lo <= o -> 1 / o <= 1 / lo.
Proof.
  intros Hlo Hle.
  apply Qle_shift_div_r; [lra|].
  assert (E : 1 / lo * o == o / lo) by (field; lra).
  rewrite E. apply Qle_shift_div_l; [exact Hlo|]. lra.
Qed.

Lemma edge_of_lower (lo o1 o2 : Q) :
  0 < lo -> lo <= o1 -> lo <= o2 -> 1 - (1 / lo + 1 / lo) <= edge_of o1 o2.
Proof.
  intros Hlo H1 H2. unfold edge_of.
  pose proof (Qinv_le_of_le lo o1 Hlo H1). pose proof (Qinv_le_of_le lo o2 Hlo H2). lra.
Qed.

Lemma edge_of_upper (hi o1 o2 : Q) :
  0 < o1 -> o1 <= hi -> 0 < o2 -> o2 <= hi -> edge_of o1 o2 <= 1 - (1 / hi + 1 / hi).
Proof.
  intros P1 H1 P2 H2. unfold edge_of.
  pose proof (Qinv_le_of_le o1 hi P1 H1). pose proof (Qinv_le_of_le o2 hi P2 H2). lra.
Qed.

(** The detector's answer when one pairing has an edge and no other does. *)
Lemma find_opportunity_unique cfg b c o1 o2 :
  pairings_priced (quotes b) combos ->
  In c combos ->
  pairing_odds (quotes b) c = Some (o1, o2) ->
  0 < edge_of o1 o2 ->
  MIN_ARBITRAGE_EDGE cfg <= edge_of o1 o2 ->
  (forall c' p1 p2, In c' combos -> c' <> c ->
     pairing_odds (quotes b) c' = Some (p1, p2) -> edge_of p1 p2 <= 0) ->
  find_opportunity cfg b = Ok (Some (c.1.1, c.2.1, o1, o2)).
Proof.
  intros Hp Hc Ho Hpos Hmin Hother. unfold find_opportunity.
  destruct (find_opportunity_in_spec cfg combos (quotes b) Hp)
    as [[_ Hwhy]|(c' & o & -> & Hin & Hfrom & Hpos' & _ & _)].
  - exfalso. destruct Hwhy as [Hle|(c' & o & Hin & Hfrom & Hlt & Hmax)].
    + specialize (Hle c o1 o2 Hc Ho). lra.
    + specialize (Hmax c o1 o2 Hc Ho). lra.
  - destruct (decide (c' = c)) as [->|Hne].
    + destruct Hfrom as (Ho' & Hb1 & Hb2). rewrite Ho in Ho'.
      destruct o as [[[b1 b2] p1] p2]. cbn in *.
      injection Ho' as <- <-. now subst.
    + exfalso. destruct Hfrom as (Ho' & _).
      specialize (Hother c' _ _ Hin Hne Ho'). unfold opp_edge in Hpos'. lra.
Qed.

Lemma window_pairings b ev ts ts' xAA xAB xBA xBB :
  let b2 := after_batches b
              [feed_quote "BookA" ev "A" xAA ts; feed_quote "BookA" ev "B" xAB ts]
              [feed_quote "BookB" ev "A" xBA ts'; feed_quote "BookB" ev "B" xBB ts'] in
  pairing_odds (quotes b2) (("BookA", "A"), ("BookB", "B"))%string
    = Some (floor_price xAA, floor_price xBB) /\
  pairing_odds (quotes b2) (("BookB", "A"), ("BookA", "B"))%string
    = Some (floor_price xBA, floor_price xAB).
Proof.
  intros b2. subst b2. unfold after_batches. split.
  - apply (pairing_odds_lookup _ _ _ (feed_quote "BookA" ev "A" xAA ts)
             (feed_quote "BookB" ev "B" xBB ts')).
    + rewrite !on_quotes_pair. cbn [quote_key feed_quote book side].
      rewrite !lookup_insert_ne by done. apply lookup_insert_eq.
    + rewrite !on_quotes_pair. cbn [quote_key feed_quote book side].
      apply lookup_insert_eq.
  - apply (pairing_odds_lookup _ _ _ (feed_quote "BookB" ev "A" xBA ts')
             (feed_quote "BookA" ev "B" xAB ts)).
    + rewrite !on_quotes_pair. cbn [quote_key feed_quote book side].
      rewrite lookup_insert_ne by done. apply lookup_insert_eq.
    + rewrite !on_quotes_pair. cbn [quote_key feed_quote book side].
      rewrite !lookup_insert_ne by done. apply lookup_insert_eq.
Qed.

Lemma priced_of_pairings (qm : gmap (string * string) Quote) a1 a2 c1 c2 :
  pairing_odds qm (("BookA", "A"), ("BookB", "B"))%string = Some (a1, a2) ->
  pairing_odds qm (("BookB", "A"), ("BookA", "B"))%string = Some (c1, c2) ->
  0 < a1 -> 0 < a2 -> 0 < c1 -> 0 < c2 ->
  pairings_priced qm combos.
Proof.
  intros H1 H2 P1 P2 P3 P4 c o1 o2 [<-|[<-|[]]] Hc.
  - rewrite H1 in Hc. injection Hc as <- <-. split; lra.
  - rewrite H2 in Hc. injection Hc as <- <-. split; lra.
Qed.

Lemma floor_price_pos (x : Q) : 0 < floor_price x.
Proof. pose proof (floor_price_ge x). lra. Qed.

(** An edge of at least 15% on one pairing and none on the other. *)
Lemma window_edges (fav dog nf1 nf2 nd1 nd2 : Q) :
  in_range 1.30 1.70 fav -> in_range (17 # 7) (13 # 3) dog ->
  in_range 0.98 1.02 nf1 -> in_range 0.98 1.02 nf2 ->
  in_range 0.98 1.02 nd1 -> in_range 0.98 1.02 nd2 ->
  0.15 <= edge_of (floor_price (dog * nd1)) (floor_price (dog * nd2)) /\
  edge_of (floor_price (fav * nf1)) (floor_price (fav * nf2)) <= 0.
Proof.
  intros [F1 F2] [D1 D2] [A1 A2] [B1 B2] [C1 C2] [E1 E2].
  split.
  - assert (L1 : 2.38 <= dog * nd1) by nra.
    assert (L2 : 2.38 <= dog * nd2) by nra.
    pose proof (floor_price_above (dog * nd1)).
    pose proof (floor_price_above (dog * nd2)).
    assert (Hb : 1 - (1 / 2.38 + 1 / 2.38) <= edge_of (floor_price (dog * nd1))
                                                      (floor_price (dog * nd2))).
    { apply edge_of_lower; lra. }
    assert (Hc : 0.15 <= 1 - (1 / 2.38 + 1 / 2.38)) by (vm_compute; discriminate).
    lra.
  - assert (U1 : fav * nf1 <= 1.734) by nra.
    assert (U2 : fav * nf2 <= 1.734) by nra.
    assert (V1 : 1.05 <= fav * nf1) by nra.
    assert (V2 : 1.05 <= fav * nf2) by nra.
    rewrite (floor_price_id _ V1), (floor_price_id _ V2).
    assert (Hb : edge_of (fav * nf1) (fav * nf2) <= 1 - (1 / 1.734 + 1 / 1.734)).
    { apply edge_of_upper; lra. }
    assert (Hc : 1 - (1 / 1.734 + 1 / 1.734) <= 0) by (vm_compute; discriminate).
    lra.
Qed.

(** X10: every shock opens an arbitrage window.  Whatever the store
    held before, once the two immediate batches of a shock (draws within
    their ranges) have reached the bot, the detector reports an
    opportunity (for any threshold up to 15%): it is the cross-book
    pairing on the underdog's stale price, bought at BookB for side A
    when A is the new favourite and at BookA for side A otherwise, and
    its edge is at least 15%. *)
Theorem shock_opens_window (cfg : Config) (b : Bot) (f : ShockFeed) (d : ShockDraws)
    (ts : Z) :
  shock_draws_ok d ->
  MIN_ARBITRAGE_EDGE cfg <= 0.15 ->
  exists f' bA bB o,
    emit_shock_begin f d ts = Ok (f', bA, bB) /\
    find_opportunity cfg (after_batches b bA bB) = Ok (Some o) /\
    0.15 <= opp_edge o /\
    (o.1.1.1, o.1.1.2)
    = (if fav_is_A d then ("BookB", "BookA") else ("BookA", "BookB"))%string.
Proof.
  intros (Hfav & HnAA & HnAB & HnSA & HnSB) Hmin.
  destruct (dog_price_bounds _ Hfav) as (Hnz & Hd & Hdog & _).
  unfold emit_shock_begin.
  rewrite (fdiv_ok _ _ Hnz). cbn [rbind]. rewrite (fdiv_ok _ _ Hd). cbn [rbind].
  assert (Hfl : floor_price (1 / (1 - 1 / fav_dec d)) = 1 / (1 - 1 / fav_dec d)).
  { apply floor_price_id. destruct Hdog as [Hlo _]. lra. }
  rewrite Hfl. set (dog := 1 / (1 - 1 / fav_dec d)) in *.
  destruct (fav_is_A d); cbn [fair_dec_A fair_dec_B feed_event_id].
  - (* A is the favourite: the edge is on (BookB, A) with (BookA, B) *)
    eexists _, _, _, _. split; [reflexivity|].
    match goal with |- context [after_batches b ?x ?y] => set (b2 := after_batches b x y) end.
    destruct (window_pairings b (feed_event_id f) ts ts
                (fav_dec d * noise_A_A d) (dog * noise_A_B d)
                (dog * noise_stale_A d) (fav_dec d * noise_stale_B d)) as [P1 P2].
    fold b2 in P1, P2.
    destruct (window_edges (fav_dec d) dog (noise_A_A d) (noise_stale_B d)
                (noise_stale_A d) (noise_A_B d)) as [Hedge Hnone]; try assumption.
    assert (Hp : pairings_priced (quotes b2) combos).
    { eapply priced_of_pairings; eauto using floor_price_pos. }
    rewrite (find_opportunity_unique cfg b2 (("BookB", "A"), ("BookA", "B"))%string
               _ _ Hp (or_intror (or_introl eq_refl)) P2).
    + split; [reflexivity|]. split; [exact Hedge|reflexivity].
    + lra.
    + lra.
    + intros c' p1 p2 [<-|[<-|[]]] Hne Hc'; [|contradiction].
      rewrite P1 in Hc'. injection Hc' as <- <-. exact Hnone.
  - (* B is the favourite: the edge is on (BookA, A) with (BookB, B) *)
    eexists _, _, _, _. split; [reflexivity|].
    match goal with |- context [after_batches b ?x ?y] => set (b2 := after_batches b x y) end.
    destruct (window_pairings b (feed_event_id f) ts ts
                (dog * noise_A_A d) (fav_dec d * noise_A_B d)
                (fav_dec d * noise_stale_A d) (dog * noise_stale_B d)) as [P1 P2].
    fold b2 in P1, P2.
    destruct (window_edges (fav_dec d) dog (noise_stale_A d) (noise_A_B d)
                (noise_A_A d) (noise_stale_B d)) as [Hedge Hnone]; try assumption.
    assert (Hp : pairings_priced (quotes b2) combos).
    { eapply priced_of_pairings; eauto using floor_price_pos. }
    rewrite (find_opportunity_unique cfg b2 (("BookA", "A"), ("BookB", "B"))%string
               _ _ Hp (or_introl eq_refl) P1).
    + split; [reflexivity|]. split; [exact Hedge|reflexivity].
    + lra.
    + lra.
    + intros c' p1 p2 [<-|[<-|[]]] Hne Hc'; [contradiction|].
      rewrite P2 in Hc'. injection Hc' as <- <-. exact Hnone.
Qed.

Lemma shock_opens_window_witness :
  exists f' bA bB o,
    emit_shock_begin (new_feed "EVT1") sample_draws 1 = Ok (f', bA, bB) /\
    find_opportunity default_config (after_batches new_bot bA bB) = Ok (Some o) /\
    0.15 <= opp_edge o /\
    (o.1.1.1, o.1.1.2)
    = (if fav_is_A sample_draws then ("BookB", "BookA") else ("BookA", "BookB"))%string.
Proof.
  apply (shock_opens_window default_config new_bot (new_feed "EVT1") sample_draws 1).
  - repeat split; vm_compute; discriminate.
  - vm_compute. discriminate.
Defined.

Lemma caught_up_pairings b ev ts ts' ts2 xAA xAB xBA xBB yBA yBB :
  let b3 := on_quotes
              (after_batches b
                 [feed_quote "BookA" ev "A" xAA ts; feed_quote "BookA" ev "B" xAB ts]
                 [feed_quote "BookB" ev "A" xBA ts'; feed_quote "BookB" ev "B" xBB ts'])
              [feed_quote "BookB" ev "A" yBA ts2; feed_quote "BookB" ev "B" yBB ts2] in
  pairing_odds (quotes b3) (("BookA", "A"), ("BookB", "B"))%string
    = Some (floor_price xAA, floor_price yBB) /\
  pairing_odds (quotes b3) (("BookB", "A"), ("BookA", "B"))%string
    = Some (floor_price yBA, floor_price xAB).
Proof.
  intros b3. subst b3. unfold after_batches. split.
  - apply (pairing_odds_lookup _ _ _ (feed_quote "BookA" ev "A" xAA ts)
             (feed_quote "BookB" ev "B" yBB ts2)).
    + rewrite !on_quotes_pair. cbn [quote_key feed_quote book side].
      rewrite !lookup_insert_ne by done. apply lookup_insert_eq.
    + rewrite !on_quotes_pair. cbn [quote_key feed_quote book side].
      apply lookup_insert_eq.
  - apply (pairing_odds_lookup _ _ _ (feed_quote "BookB" ev "A" yBA ts2)
             (feed_quote "BookA" ev "B" xAB ts)).
    + rewrite !on_quotes_pair. cbn [quote_key feed_quote book side].
      rewrite lookup_insert_ne by done. apply lookup_insert_eq.
    + rewrite !on_quotes_pair. cbn [quote_key feed_quote book side].
      rewrite !lookup_insert_ne by done. apply lookup_insert_eq.
Qed.

(** On a fair book quoted with noise factors of at most 1.03, a
    cross-book pairing has an edge of at most 3/103. *)
Lemma caught_up_edge (fA fB x y : Q) :
  1.30 <= fA -> 1.30 <= fB -> 1 / fA + 1 / fB == 1 ->
  in_range 0.98 1.03 x -> in_range 0.98 1.03 y ->
  edge_of (floor_price (fA * x)) (floor_price (fB * y)) <= 3 # 103.
Proof.
  intros HA HB Hfair [X1 X2] [Y1 Y2].
  assert (V1 : 1.05 <= fA * x) by nra.
  assert (V2 : 1.05 <= fB * y) by nra.
  rewrite (floor_price_id _ V1), (floor_price_id _ V2). unfold edge_of.
  assert (I1 : 1 / (fA * 1.03) <= 1 / (fA * x)).
  { apply Qinv_le_of_le; [lra|]. nra. }
  assert (I2 : 1 / (fB * 1.03) <= 1 / (fB * y)).
  { apply Qinv_le_of_le; [lra|]. nra. }
  assert (E : 1 / (fA * 1.03) + 1 / (fB * 1.03) == (1 / fA + 1 / fB) / 1.03).
  { field. split; lra. }
  rewrite Hfair in E.
  assert (Hc : 1 / 1.03 == 100 # 103) by reflexivity.
  lra.
Qed.

(** X11: the window narrows once BookB has caught up.  After the three
    batches of a shock (draws within their ranges) every cross-book
    pairing has an edge of at most 3/103 (about 2.9%): the detector does
    not raise, whatever it reports has at most that edge, and with a
    threshold above 3/103 it reports nothing. *)
Theorem shock_window_closes (cfg : Config) (b : Bot) (f : ShockFeed) (d : ShockDraws)
    (ts : Z) (mA mB : Q) (ts2 : Z) :
  shock_draws_ok d ->
  in_range 0.98 1.03 mA -> in_range 0.98 1.03 mB ->
  exists f' bA bB r,
    emit_shock_begin f d ts = Ok (f', bA, bB) /\
    find_opportunity cfg (on_quotes (after_batches b bA bB) (emit_shock_end f' mA mB ts2))
    = Ok r /\
    (forall o, r = Some o -> opp_edge o <= 3 # 103) /\
    ((3 # 103) < MIN_ARBITRAGE_EDGE cfg -> r = None).
Proof.
  intros (Hfav & HnAA & HnAB & HnSA & HnSB) HmA HmB.
  destruct (dog_price_bounds _ Hfav) as (Hnz & Hd & Hdog & Hfair).
  unfold emit_shock_begin.
  rewrite (fdiv_ok _ _ Hnz). cbn [rbind]. rewrite (fdiv_ok _ _ Hd). cbn [rbind].
  assert (Hfl : floor_price (1 / (1 - 1 / fav_dec d)) = 1 / (1 - 1 / fav_dec d)).
  { apply floor_price_id. destruct Hdog as [Hlo _]. lra. }
  rewrite Hfl. set (dog := 1 / (1 - 1 / fav_dec d)) in *.
  assert (HnAA' : in_range 0.98 1.03 (noise_A_A d)) by (destruct HnAA; split; lra).
  assert (HnAB' : in_range 0.98 1.03 (noise_A_B d)) by (destruct HnAB; split; lra).
  assert (Hfav13 : 1.30 <= fav_dec d) by apply Hfav.
  assert (Hdog13 : 1.30 <= dog) by (destruct Hdog; lra).
  assert (Hfair' : 1 / dog + 1 / fav_dec d == 1) by (rewrite Qplus_comm; exact Hfair).
  assert (Hgen : forall fA fB,
             1.30 <= fA -> 1.30 <= fB -> 1 / fA + 1 / fB == 1 ->
             forall b3,
               pairing_odds (quotes b3) (("BookA", "A"), ("BookB", "B"))%string
               = Some (floor_price (fA * noise_A_A d), floor_price (fB * mB)) ->
               pairing_odds (quotes b3) (("BookB", "A"), ("BookA", "B"))%string
               = Some (floor_price (fA * mA), floor_price (fB * noise_A_B d)) ->
               exists r, find_opportunity cfg b3 = Ok r /\
                         (forall o, r = Some o -> opp_edge o <= 3 # 103) /\
                         ((3 # 103) < MIN_ARBITRAGE_EDGE cfg -> r = None)).
  { intros fA fB HA HB HF b3 P1 P2.
    assert (Hp : pairings_priced (quotes b3) combos).
    { eapply priced_of_pairings; eauto using floor_price_pos. }
    assert (Hall : forall c o1 o2, In c combos -> pairing_odds (quotes b3) c = Some (o1, o2) ->
                                   edge_of o1 o2 <= 3 # 103).
    { intros c o1 o2 [<-|[<-|[]]] Hc.
      - rewrite P1 in Hc. injection Hc as <- <-. apply caught_up_edge; assumption.
      - rewrite P2 in Hc. injection Hc as <- <-. apply caught_up_edge; assumption. }
    unfold find_opportunity.
    destruct (find_opportunity_in_spec cfg combos (quotes b3) Hp)
      as [[-> _]|(c & o & -> & Hin & (Ho & _) & _ & Hmin & _)].
    - exists None. split; [reflexivity|]. split; [intros o [=]|reflexivity].
    - exists (Some o). split; [reflexivity|].
      pose proof (Hall c _ _ Hin Ho) as Hle.
      split.
      + intros o' [= <-]. exact Hle.
      + intros Hbig. exfalso. unfold opp_edge in Hmin. lra. }
  destruct (fav_is_A d); cbn [fair_dec_A fair_dec_B feed_event_id emit_shock_end].
  - destruct (caught_up_pairings b (feed_event_id f) ts ts ts2
                (fav_dec d * noise_A_A d) (dog * noise_A_B d)
                (dog * noise_stale_A d) (fav_dec d * noise_stale_B d)
                (fav_dec d * mA) (dog * mB)) as [P1 P2].
    destruct (Hgen (fav_dec d) dog Hfav13 Hdog13 Hfair _ P1 P2) as (r & Hr & H1 & H2).
    eexists _, _, _, r. split; [reflexivity|]. split; [exact Hr|]. split; assumption.
  - destruct (caught_up_pairings b (feed_event_id f) ts ts ts2
                (dog * noise_A_A d) (fav_dec d * noise_A_B d)
                (fav_dec d * noise_stale_A d) (dog * noise_stale_B d)
                (dog * mA) (fav_dec d * mB)) as [P1 P2].
    destruct (Hgen dog (fav_dec d) Hdog13 Hfav13 Hfair' _ P1 P2) as (r & Hr & H1 & H2).
    eexists _, _, _, r. split; [reflexivity|]. split; [exact Hr|]. split; assumption.
Qed.

Lemma shock_window_closes_witness :
  exists f' bA bB r,
    emit_shock_begin (new_feed "EVT1") sample_draws 1 = Ok (f', bA, bB) /\
    find_opportunity default_config
      (on_quotes (after_batches new_bot bA bB) (emit_shock_end f' 1.00 1.01 451))
    = Ok r /\
    (forall o, r = Some o -> opp_edge o <= 3 # 103) /\
    ((3 # 103) < MIN_ARBITRAGE_EDGE default_config -> r = None).
Proof.
  apply (shock_window_closes default_config new_bot (new_feed "EVT1") sample_draws 1
           1.00 1.01 451).
  - repeat split; vm_compute; discriminate.
  - split; vm_compute; discriminate.
  - split; vm_compute; discriminate.
Defined.

(** ** The engine loop and the ledger *)

Lemma engine_attempt_effect cfg ev b a :
  open_trades (engine_attempt cfg ev b a) = open_trades b /\
  exists tl, trades (engine_attempt cfg ev b a) = trades b ++ tl /\ (length tl <= 1)%nat.
Proof.
  unfold engine_attempt.
  destruct (attempt_cases cfg (publish_all b (ai_sleep a)) ev (ai_wait1 a) (ai_u1 a)
              (ai_now1 a) (ai_wait2 a) (ai_u2 a) (ai_now2 a) (ai_now2' a))
    as [(_ & Htr & Hopen)|(l & t1 & t2 & _ & _ & Htr & Hopen)];
    rewrite Htr, Hopen, publish_all_trades, publish_all_open.
  - split; [reflexivity|]. exists []. split; [now rewrite app_nil_r|cbn; lia].
  - split; [reflexivity|]. eexists. split; [reflexivity|].
    destruct (accepted t1 && accepted t2); cbn; lia.
Qed.

Lemma engine_fold cfg ev inputs :
  forall b,
    open_trades (foldl (engine_attempt cfg ev) b inputs) = open_trades b /\
    (length (trades (foldl (engine_attempt cfg ev) b inputs))
     <= length (trades b) + length inputs)%nat.
Proof.
  induction inputs as [|a inputs IH]; intros b; cbn [foldl].
  - split; [reflexivity|cbn; lia].
  - destruct (IH (engine_attempt cfg ev b a)) as [Ho Hl].
    destruct (engine_attempt_effect cfg ev b a) as [Ho' (tl & Htl & Hlen)].
    split; [congruence|].
    rewrite Htl, length_app in Hl. cbn [length]. lia.
Qed.

(** X12: run as the engine runs them, one awaited call at a time, the
    attempts leave the open-trade counter at 0 after every call,
    whatever the feed publishes and whatever the venues answer; and the
    ledger holds at most one trade per call. *)
Theorem engine_one_attempt_at_a_time (cfg : Config) (ev : string)
    (inputs : list AttemptInput) :
  open_trades (engine cfg ev inputs) = 0%Z /\
  (length (trades (engine cfg ev inputs)) <= length inputs)%nat.
Proof.
  unfold engine. destruct (engine_fold cfg ev inputs new_bot) as [Ho Hl].
  split; [exact Ho|exact Hl].
Qed.

(** The sample session: the first call trades, the second has a
    rejected leg. *)
Example engine_sample_session :
  length (trades (engine default_config "EVT1" sample_inputs)) = 1%nat /\
  open_trades (engine default_config "EVT1" sample_inputs) = 0%Z.
Proof. split; vm_compute; reflexivity. Qed.

Lemma try_trade_start_trades cfg b i ev :
  trades (try_trade_start cfg b i ev).1.1 = trades b.
Proof.
  unfold try_trade_start. repeat case_match; reflexivity.
Qed.

Lemma try_trade_leg1_trades b i l u now :
  trades (try_trade_leg1 b i l u now).1.1 = trades b.
Proof.
  unfold try_trade_leg1. repeat case_match; reflexivity.
Qed.

Lemma try_trade_leg2_trades b i l t1 u now now' :
  exists tl, trades (try_trade_leg2 b i l t1 u now now').1.1 = trades b ++ tl.
Proof.
  unfold try_trade_leg2. repeat case_match; cbn;
    solve [exists []; now rewrite app_nil_r | eexists; reflexivity].
Qed.

Lemma step_trades cfg s e :
  exists tl, trades (bot (step cfg s e).1) = trades (bot s) ++ tl.
Proof.
  destruct e as [qs|ev|i u now now']; cbn [step].
  - exists []. cbn. now rewrite app_nil_r.
  - pose proof (try_trade_start_trades cfg (bot s) (length (tasks s)) ev) as H.
    destruct (try_trade_start cfg (bot s) (length (tasks s)) ev) as [[b' t] o].
    exists []. cbn in *. now rewrite app_nil_r.
  - destruct (tasks s !! i) as [[l|l t1| |e]|];
      try (exists []; now rewrite app_nil_r).
    + pose proof (try_trade_leg1_trades (bot s) i l u now) as H.
      destruct (try_trade_leg1 (bot s) i l u now) as [[b' t] o].
      exists []. cbn in *. now rewrite app_nil_r.
    + destruct (try_trade_leg2_trades (bot s) i l t1 u now now') as [tl H].
      destruct (try_trade_leg2 (bot s) i l t1 u now now') as [[b' t] o].
      exists tl. exact H.
Qed.

Lemma run_trades cfg es :
  forall s, exists tl, trades (bot (run cfg s es).1) = trades (bot s) ++ tl.
Proof.
  induction es as [|e es IH]; intros s.
  - exists []. cbn. now rewrite app_nil_r.
  - rewrite run_cons. cbn [fst].
    destruct (IH (step cfg s e).1) as [tl2 H2].
    destruct (step_trades cfg s e) as [tl1 H1].
    exists (tl1 ++ tl2). rewrite H2, H1. now rewrite app_assoc.
Qed.

(** X13: the ledger is append-only.  In any schedule, the ledger after
    a prefix of the events is a prefix of the ledger after all of them:
    no step removes, reorders or rewrites a recorded trade. *)
Theorem ledger_append_only (cfg : Config) (es1 es2 : list Event) :
  trades (bot (run cfg init es1).1) `prefix_of` trades (bot (run cfg init (es1 ++ es2)).1).
Proof.
  rewrite run_app. cbn [fst].
  destruct (run_trades cfg es2 (run cfg init es1).1) as [tl H].
  exists tl. exact H.
Qed.

Lemma step_accounting cfg s e :
  sys_inv cfg (fun _ => True) s ->
  (length (trades (bot (step cfg s e).1)) + legs_in_flight (step cfg s e).1
   <= length (trades (bot s)) + legs_in_flight s + ticks [e])%nat.
Proof.
  intros [_ _ Hstore Hloc _]. unfold legs_in_flight.
  destruct e as [qs|ev|i u now now']; cbn [step ticks].
  - cbn. lia.
  - destruct (try_trade_start_cases cfg (fun _ => True) (bot s) (length (tasks s)) ev Hstore)
      as [[-> _]|[[e ->]|(l & -> & _ & _ & _)]]; cbn;
      rewrite count_in_flight_app; cbn; lia.
  - destruct (tasks s !! i) as [[l|l t1| |e]|] eqn:Hi; cbn; try lia.
    + assert (Hl : locals_ok cfg (fun _ => True) l) by (eapply Hloc; [exact Hi|reflexivity]).
      destruct (try_trade_leg1_cases cfg _ (bot s) i l u now Hl) as (t1 & ->). cbn.
      pose proof (count_in_flight_insert _ _ _ (AwaitLeg2 l t1) Hi) as Hc. cbn in Hc. lia.
    + assert (Hl : locals_ok cfg (fun _ => True) l) by (eapply Hloc; [exact Hi|reflexivity]).
      destruct (try_trade_leg2_cases cfg _ (bot s) i l t1 u now now' Hl) as (t2 & ->).
      pose proof (count_in_flight_insert _ _ _ Returned Hi) as Hc. cbn in Hc.
      destruct (accepted t1 && accepted t2); cbn; rewrite ?length_app; cbn; lia.
Qed.

Lemma run_accounting cfg es :
  forall s,
    sys_inv cfg (fun _ => True) s ->
    (length (trades (bot (run cfg s es).1)) + legs_in_flight (run cfg s es).1
     <= length (trades (bot s)) + legs_in_flight s + ticks es)%nat.
Proof.
  induction es as [|e es IH]; intros s Hs; [cbn; lia|].
  rewrite run_cons. cbn [fst].
  assert (Hs' : sys_inv cfg (fun _ => True) (step cfg s e).1).
  { apply sys_inv_step; [exact Hs|]. destruct e; cbn; [|exact I|exact I].
    apply Forall_forall. intros; exact I. }
  specialize (IH _ Hs'). pose proof (step_accounting cfg s e Hs) as H1.
  assert (Ht : ticks (e :: es) = (ticks [e] + ticks es)%nat) by (destruct e; reflexivity).
  lia.
Qed.

(** X14: every trade is the outcome of a call of its own.  In any
    schedule, the trades in the ledger plus the attempts still in
    flight are at most the calls of [try_trade] made so far; a ticket
    that comes back twice or for no attempt creates nothing. *)
Theorem trades_bounded_by_calls (cfg : Config) (es : list Event) :
  (length (trades (bot (run cfg init es).1)) + legs_in_flight (run cfg init es).1
   <= ticks es)%nat.
Proof.
  pose proof (run_accounting cfg es init (sys_inv_init _ _)) as H.
  cbn in H. cbn. lia.
Qed.

(** ** No exception on a well-formed feed *)

Lemma store_ok_priced b cs :
  store_ok (fun o => 0 < o) b -> pairings_priced (quotes b) cs.
Proof.
  intros Hs c o1 o2 _ Hc. unfold pairing_odds in Hc.
  destruct (quotes b !! c.1) as [q1|] eqn:E1; [|discriminate].
  destruct (quotes b !! c.2) as [q2|] eqn:E2; [|discriminate].
  injection Hc as <- <-.
  pose proof (Hs _ _ E1) as H1. pose proof (Hs _ _ E2) as H2.
  cbn beta in H1, H2. split; lra.
Qed.

Lemma try_trade_start_no_raise cfg b i ev :
  store_ok (fun o => 0 < o) b ->
  ~ TOTAL_OUTLAY cfg == 0 ->
  not_raised (try_trade_start cfg b i ev).1.2.
Proof.
  intros Hs HT. unfold try_trade_start.
  destruct (MAX_CONCURRENT cfg <=? open_trades b)%Z; [exact I|].
  destruct (find_opportunity cfg b) as [[o|]|e] eqn:Hfind.
  3:{ exfalso. unfold find_opportunity in Hfind.
      destruct (find_opportunity_in_spec cfg combos (quotes b) (store_ok_priced b combos Hs))
        as [[H _]|(c & o & H & _)]; congruence. }
  2:{ exact I. }
  destruct (find_opportunity_some _ _ _ Hfind) as (c & Hin & Hfrom & _).
  destruct (opp_from_store _ _ _ _ Hs Hfrom) as [HP1 HP2].
  destruct (combos_books c Hin) as [Hb1 _].
  destruct Hfrom as (_ & Hn1 & _).
  destruct o as [[[bA bB] o_A] o_B]. cbn in HP1, HP2, Hn1.
  unfold solve_equalized_stakes.
  rewrite fdiv_ok by lra. cbn [rbind].
  rewrite (fdiv_ok _ _ HT).
  rewrite call_place_ok by (rewrite Hn1; exact Hb1).
  exact I.
Qed.

Lemma step_no_raise cfg s e :
  sys_inv cfg (fun o => 0 < o) s ->
  ~ TOTAL_OUTLAY cfg == 0 ->
  Forall not_raised (tasks s) ->
  Forall not_raised (tasks (step cfg s e).1).
Proof.
  intros [_ _ Hstore Hloc _] HT Hts.
  destruct e as [qs|ev|i u now now']; cbn [step].
  - exact Hts.
  - pose proof (try_trade_start_no_raise cfg (bot s) (length (tasks s)) ev Hstore HT) as H.
    destruct (try_trade_start cfg (bot s) (length (tasks s)) ev) as [[b' t] o]. cbn in *.
    apply Forall_app. split; [exact Hts|]. constructor; [exact H|constructor].
  - destruct (tasks s !! i) as [[l|l t1| |e]|] eqn:Hi; try exact Hts.
    + assert (Hl : locals_ok cfg (fun o => 0 < o) l)
        by (eapply Hloc; [exact Hi|reflexivity]).
      destruct (try_trade_leg1_cases cfg _ (bot s) i l u now Hl) as (t1 & ->). cbn.
      apply Forall_insert; [exact Hts|exact I].
    + assert (Hl : locals_ok cfg (fun o => 0 < o) l)
        by (eapply Hloc; [exact Hi|reflexivity]).
      destruct (try_trade_leg2_cases cfg _ (bot s) i l t1 u now now' Hl) as (t2 & ->).
      destruct (accepted t1 && accepted t2); cbn; (apply Forall_insert; [exact Hts|exact I]).
Qed.

Lemma run_no_raise cfg es :
  forall s,
    sys_inv cfg (fun o => 0 < o) s ->
    ~ TOTAL_OUTLAY cfg == 0 ->
    Forall (event_ok (fun o => 0 < o)) es ->
    Forall not_raised (tasks s) ->
    Forall not_raised (tasks (run cfg s es).1).
Proof.
  induction es as [|e es IH]; intros s Hs HT Hes Hts; [exact Hts|].
  apply Forall_cons_1 in Hes as [He Hes].
  rewrite run_cons. cbn [fst]. apply IH; try assumption.
  - apply sys_inv_step; assumption.
  - apply step_no_raise; assumption.
Qed.

(** X15: on a feed of positive prices and with a non-zero outlay
    [try_trade] never raises: in every reachable state no call has ended
    in an exception (no [ZeroDivisionError] from the detector, the
    solver or the ROI, no [KeyError] from a venue lookup). *)
Theorem try_trade_never_raises (cfg : Config) (es : list Event) :
  ~ TOTAL_OUTLAY cfg == 0 ->
  Forall (event_ok (fun o => 0 < o)) es ->
  Forall not_raised (tasks (run cfg init es).1).
Proof.
  intros HT Hes.
  apply run_no_raise; [apply sys_inv_init|exact HT|exact Hes|constructor].
Qed.

Lemma try_trade_never_raises_witness :
  Forall not_raised (tasks (run default_config init sample_events).1).
Proof.
  apply (try_trade_never_raises default_config sample_events).
  - vm_compute. discriminate.
  - exact sample_events_positive.
Defined.

(** ** Return on the outlay *)

Lemma locals_roi_edge cfg l :
  locals_ok cfg (fun o => 0 < o) l ->
  0 < TOTAL_OUTLAY cfg ->
  l_roi l * (1 - edge_of (l_oA l) (l_oB l)) == edge_of (l_oA l) (l_oB l) /\
  0 < l_roi l /\
  edge_of (l_oA l) (l_oB l) <= l_roi l.
Proof.
  intros Hl HT.
  pose proof (lk_PA _ _ _ Hl) as HA. pose proof (lk_PB _ _ _ Hl) as HB. cbn beta in HA, HB.
  pose proof (lk_edge_pos _ _ _ Hl) as He.
  pose proof (locals_locked_pos _ _ _ Hl HT HA HB) as Hlocked.
  assert (Hroi : 0 < l_roi l).
  { rewrite (lk_roi _ _ _ Hl). apply Qdiv_pos; assumption. }
  assert (E : l_roi l * (1 - edge_of (l_oA l) (l_oB l)) == edge_of (l_oA l) (l_oB l)).
  { rewrite (lk_roi _ _ _ Hl), (lk_locked _ _ _ Hl), (lk_SB _ _ _ Hl), (lk_SA _ _ _ Hl).
    unfold edge_of. field. repeat split; lra. }
  split; [exact E|]. split; [exact Hroi|].
  assert (Hprod : 0 < l_roi l * edge_of (l_oA l) (l_oB l))
    by (apply Qmult_lt_0_compat; assumption).
  assert (E' : l_roi l * (1 - edge_of (l_oA l) (l_oB l))
               == l_roi l - l_roi l * edge_of (l_oA l) (l_oB l)) by ring.
  rewrite E' in E. lra.
Qed.

(** X16: the edge threshold is a floor on the return, in exact
    rational arithmetic.  With a positive outlay and a feed of positive
    prices, every trade in the ledger of a reachable state has
    [roi * (1 - edge) == edge] for its edge [1 - (1/oA + 1/oB)] (up to
    rounding in the program), so its return on the outlay is at least
    its edge and at least [MIN_ARBITRAGE_EDGE]. *)
Theorem ledger_roi_clears_threshold (cfg : Config) (es : list Event) :
  0 < TOTAL_OUTLAY cfg ->
  Forall (event_ok (fun o => 0 < o)) es ->
  Forall (fun tr =>
            roi tr * (1 - (1 - (1 / oA tr + 1 / oB tr))) == 1 - (1 / oA tr + 1 / oB tr) /\
            1 - (1 / oA tr + 1 / oB tr) <= roi tr /\
            MIN_ARBITRAGE_EDGE cfg <= roi tr)
         (trades (bot (run cfg init es).1)).
Proof.
  intros HT Hes.
  destruct (sys_inv_run cfg (fun o => 0 < o) es init (sys_inv_init _ _) Hes)
    as [_ _ _ _ Htr].
  eapply Forall_impl; [exact Htr|].
  intros tr (l & now & -> & Hl). cbn.
  destruct (locals_roi_edge cfg l Hl HT) as (E & _ & Hle).
  pose proof (lk_edge_min _ _ _ Hl) as Hmin. unfold edge_of in *.
  split; [exact E|]. split; [exact Hle|]. lra.
Qed.

Lemma ledger_roi_clears_threshold_witness :
  Forall (fun tr =>
            roi tr * (1 - (1 - (1 / oA tr + 1 / oB tr))) == 1 - (1 / oA tr + 1 / oB tr) /\
            1 - (1 / oA tr + 1 / oB tr) <= roi tr /\
            MIN_ARBITRAGE_EDGE default_config <= roi tr)
         (trades (bot (run default_config init sample_events).1)).
Proof.
  apply (ledger_roi_clears_threshold default_config sample_events).
  - reflexivity.
  - exact sample_events_positive.
Defined.

(** ** The summary of a session *)

Lemma foldl_Qplus_acc (l : list Q) : forall a, foldl Qplus a l == a + foldl Qplus 0 l.
Proof.
  induction l as [|x l IH]; intros a; cbn [foldl].
  - ring.
  - rewrite (IH (a + x)), (IH (0 + x)). ring.
Qed.

Lemma fsum_cons (x : Q) (l : list Q) : fsum (x :: l) == x + fsum l.
Proof.
  unfold fsum. cbn [foldl]. rewrite foldl_Qplus_acc. ring.
Qed.

Lemma inject_Z_S (n : nat) : inject_Z (Z.of_nat (S n)) == inject_Z (Z.of_nat n) + 1.
Proof.
  rewrite Nat2Z.inj_succ. unfold Z.succ. rewrite inject_Z_plus. reflexivity.
Qed.

Lemma fsum_ge (c : Q) (l : list Q) :
  Forall (fun x => c <= x) l -> inject_Z (Z.of_nat (length l)) * c <= fsum l.
Proof.
  induction 1 as [|x l Hx Hl IH].
  - unfold fsum. cbn [length foldl].
    change (inject_Z (Z.of_nat 0)) with 0. lra.
  - rewrite fsum_cons. cbn [length]. rewrite inject_Z_S. lra.
Qed.

Lemma fsum_pos (x : Q) (l : list Q) :
  Forall (fun y => 0 < y) (x :: l) -> 0 < fsum (x :: l).
Proof.
  intros H. apply Forall_cons_1 in H as [Hx Hl].
  rewrite fsum_cons.
  assert (H0 : inject_Z (Z.of_nat (length l)) * 0 <= fsum l).
  { apply fsum_ge. eapply Forall_impl; [exact Hl|]. intros; cbn beta in *; lra. }
  lra.
Qed.

Lemma fsum_scaled (T : Q) (ts : list Trade) :
  ~ T == 0 ->
  Forall (fun tr => roi tr == profit_locked tr / T) ts ->
  fsum (map roi ts) * T == fsum (map profit_locked ts).
Proof.
  intros HT. induction 1 as [|tr ts Htr _ IH].
  - cbn. unfold fsum. cbn. ring.
  - cbn [map]. rewrite !fsum_cons, <- IH, Htr. field. exact HT.
Qed.

(** X17: the summary of a reachable ledger.  With a positive outlay
    and a feed of positive prices, [summary] does not raise; on an empty
    ledger it reports that nothing completed, and otherwise it reports
    the number of trades and, in exact rational arithmetic, a positive
    total locked profit and an average ROI that is at least
    [MIN_ARBITRAGE_EDGE] and equals the total locked profit divided by
    the capital deployed, [n * TOTAL_OUTLAY] (up to rounding in the
    program). *)
Theorem session_summary_consistent (cfg : Config) (es : list Event) :
  0 < TOTAL_OUTLAY cfg ->
  Forall (event_ok (fun o => 0 < o)) es ->
  exists r,
    summary (bot (run cfg init es).1) = Ok r /\
    match r with
    | NoCompletedArbitrages => trades (bot (run cfg init es).1) = []
    | SessionSummary n avg total =>
        n = Z.of_nat (length (trades (bot (run cfg init es).1))) /\
        (0 < n)%Z /\
        0 < total /\
        MIN_ARBITRAGE_EDGE cfg <= avg /\
        avg * (inject_Z n * TOTAL_OUTLAY cfg) == total
    end.
Proof.
  intros HT Hes.
  destruct (sys_inv_run cfg (fun o => 0 < o) es init (sys_inv_init _ _) Hes)
    as [_ _ _ _ Htr].
  set (b := bot (run cfg init es).1) in *.
  assert (Hfacts : Forall (fun tr => 0 < profit_locked tr /\
                                     roi tr == profit_locked tr / TOTAL_OUTLAY cfg /\
                                     MIN_ARBITRAGE_EDGE cfg <= roi tr) (trades b)).
  { eapply Forall_impl; [exact Htr|].
    intros tr (l & now & -> & Hl). cbn.
    destruct (locals_roi_edge cfg l Hl HT) as (_ & _ & Hle).
    pose proof (lk_edge_min _ _ _ Hl) as Hmin.
    split.
    - apply (locals_locked_pos _ _ _ Hl HT); [exact (lk_PA _ _ _ Hl)|exact (lk_PB _ _ _ Hl)].
    - split; [rewrite (lk_roi _ _ _ Hl); reflexivity|lra]. }
  unfold summary. destruct (trades b) as [|tr ts] eqn:Etr.
  - exists NoCompletedArbitrages. split; reflexivity.
  - unfold avg_roi_of. rewrite fdiv_ok by apply inject_Z_S_nonzero. cbn [rbind].
    eexists. split; [reflexivity|]. cbn beta iota.
    set (n := inject_Z (Z.of_nat (length (tr :: ts)))).
    assert (Hn : 0 < n) by (apply inject_Z_pos; cbn [length]; lia).
    assert (Hsc : fsum (map roi (tr :: ts)) * TOTAL_OUTLAY cfg
                  == fsum (map profit_locked (tr :: ts))).
    { apply fsum_scaled; [lra|].
      eapply Forall_impl; [exact Hfacts|]. intros ? (_ & H & _). exact H. }
    assert (Hmin : n * MIN_ARBITRAGE_EDGE cfg <= fsum (map roi (tr :: ts))).
    { unfold n. rewrite <- (length_map roi). apply fsum_ge.
      apply Forall_map. eapply Forall_impl; [exact Hfacts|].
      intros ? (_ & _ & H). exact H. }
    assert (Htot : 0 < fsum (map profit_locked (tr :: ts))).
    { cbn [map]. apply fsum_pos. change (profit_locked tr :: map profit_locked ts)
        with (map profit_locked (tr :: ts)).
      apply Forall_map. eapply Forall_impl; [exact Hfacts|].
      intros ? (H & _). exact H. }
    split; [reflexivity|]. split; [cbn [length]; lia|]. split; [exact Htot|]. split.
    + apply Qle_shift_div_l; [exact Hn|]. rewrite Qmult_comm. exact Hmin.
    + rewrite <- Hsc. fold n. field. lra.
Qed.

Lemma session_summary_consistent_witness :
  exists r,
    summary (bot (run default_config init sample_events).1) = Ok r /\
    match r with
    | NoCompletedArbitrages => trades (bot (run default_config init sample_events).1) = []
    | SessionSummary n avg total =>
        n = Z.of_nat (length (trades (bot (run default_config init sample_events).1))) /\
        (0 < n)%Z /\
        0 < total /\
        MIN_ARBITRAGE_EDGE default_config <= avg /\
        avg * (inject_Z n * TOTAL_OUTLAY default_config) == total
    end.
Proof.
  apply (session_summary_consistent default_config sample_events).
  - reflexivity.
  - exact sample_events_positive.
Defined.

(** ** The order of the legs in any interleaving *)

Lemma legs_sequential_app o1 o2 :
  legs_sequential o1 -> legs_sequential o2 -> legs_sequential (o1 ++ o2).
Proof.
  intros H1 H2 pre i post Heq.
  apply app_eq_app in Heq as [mid [[Ho1 Hmid]|[Hpre Hmid]]].
  - destruct mid as [|x mid].
    + cbn in Hmid. destruct (H2 [] i post (eq_sym Hmid)) as [a []].
    + injection Hmid as <- Hpost.
      apply (H1 pre i mid). exact Ho1.
  - destruct (H2 mid i post Hmid) as [a Ha].
    exists a. rewrite Hpre. apply in_or_app. now right.
Qed.

Ltac log_sequential :=
  let pre := fresh "pre" in
  let i := fresh "i" in
  let post := fresh "post" in
  let Heq := fresh "Heq" in
  intros pre i post Heq;
  do 4 (try (destruct pre as [|? pre]; cbn in Heq; try discriminate Heq));
  try (injection Heq as <- <- _; eexists; left; reflexivity).

Lemma step_log_shape_sequential i obs :
  step_log_shape i obs -> legs_sequential obs.
Proof.
  intros [->|[->|[->|[[a ->]|[[a ->]|[[a ->]|[a ->]]]]]]]; log_sequential.
Qed.

Lemma try_trade_start_shape cfg b i ev :
  step_log_shape i (try_trade_start cfg b i ev).2.
Proof.
  unfold try_trade_start, step_log_shape.
  destruct (MAX_CONCURRENT cfg <=? open_trades b)%Z; [now left|].
  destruct (find_opportunity cfg b) as [[[[[bA bB] o_A] o_B]|]|e]; [|now left|now left].
  destruct (solve_equalized_stakes o_A o_B (TOTAL_OUTLAY cfg)) as [[[SA SB] locked]|e];
    [|now left].
  destruct (fdiv locked (TOTAL_OUTLAY cfg)) as [r|e]; [|now left].
  destruct (call_place bA) as [nm|e]; cbn; auto.
Qed.

Lemma try_trade_leg1_shape b i l u now :
  step_log_shape i (try_trade_leg1 b i l u now).2.
Proof.
  unfold try_trade_leg1, step_log_shape.
  destruct (rbind _ _) as [t1|e]; [|now left].
  destruct (call_place (l_bB l)) as [nm|e]; cbn; eauto 10.
Qed.

Lemma try_trade_leg2_shape b i l t1 u now now' :
  step_log_shape i (try_trade_leg2 b i l t1 u now now').2.
Proof.
  unfold try_trade_leg2, step_log_shape.
  destruct (rbind _ _) as [t2|e]; [|now left].
  destruct (negb _); cbn; eauto 10.
Qed.

Lemma step_legs_sequential cfg s e : legs_sequential (step cfg s e).2.
Proof.
  destruct e as [qs|ev|i u now now']; cbn [step].
  - apply (step_log_shape_sequential 0). now left.
  - pose proof (try_trade_start_shape cfg (bot s) (length (tasks s)) ev) as H.
    destruct (try_trade_start cfg (bot s) (length (tasks s)) ev) as [[b' t] o].
    eapply step_log_shape_sequential, H.
  - destruct (tasks s !! i) as [[l|l t1| |e]|];
      try (apply (step_log_shape_sequential 0); now left).
    + pose proof (try_trade_leg1_shape (bot s) i l u now) as H.
      destruct (try_trade_leg1 (bot s) i l u now) as [[b' t] o].
      eapply step_log_shape_sequential, H.
    + pose proof (try_trade_leg2_shape (bot s) i l t1 u now now') as H.
      destruct (try_trade_leg2 (bot s) i l t1 u now now') as [[b' t] o].
      eapply step_log_shape_sequential, H.
Qed.

(** X18: in every schedule, however many attempts are interleaved and
    from whatever state, the second leg of an attempt begins only after
    the first leg of the same attempt has resolved. *)
Theorem legs_sequential_in_any_run (cfg : Config) (s : Sys) (es : list Event) :
  legs_sequential (run cfg s es).2.
Proof.
  revert s. induction es as [|e es IH]; intros s.
  - cbn. intros pre i post Heq. destruct pre; discriminate Heq.
  - rewrite run_cons. cbn [snd].
    apply legs_sequential_app; [apply step_legs_sequential|apply IH].
Qed.

(** ** When the detector raises *)

Lemma find_loop_raises qm cs :
  forall best e x, find_loop qm cs best e = Raise x -> x = ZeroDivisionError.
Proof.
  induction cs as [|[[b1 s1] [b2 s2]] cs IH]; intros best e x H; cbn in H; [discriminate|].
  destruct (qm !! (b1, s1)) as [q1|]; [|eapply IH, H].
  destruct (qm !! (b2, s2)) as [q2|]; [|eapply IH, H].
  unfold imp_prob_from_dec, fdiv in H.
  destruct (Qeq_bool (decimal q1) 0); [cbn in H; congruence|].
  destruct (Qeq_bool (decimal q2) 0); [cbn in H; congruence|].
  cbn in H. destruct (Qltb _ _) in H; eapply IH, H.
Qed.

Lemma pairings_pricedb_false qm cs :
  pairings_pricedb qm cs = false ->
  exists c o1 o2, In c cs /\ pairing_odds qm c = Some (o1, o2) /\ (o1 == 0 \/ o2 == 0).
Proof.
  unfold pairings_pricedb. induction cs as [|c cs IH]; cbn [forallb]; [discriminate|].
  intros H. apply andb_false_iff in H as [H|H].
  - destruct (pairing_odds qm c) as [[o1 o2]|] eqn:Ho; [|discriminate].
    exists c, o1, o2. split; [now left|]. split; [exact Ho|].
    apply andb_false_iff in H as [H|H]; apply negb_false_iff, Qeq_bool_iff in H; auto.
  - destruct (IH H) as (c' & o1 & o2 & Hin & Ho & Hz).
    exists c', o1, o2. split; [now right|]. split; assumption.
Qed.

(** X20: whatever the detector raises is [ZeroDivisionError], and it
    raises exactly when a complete pairing carries a zero price; a zero
    price in a pairing whose other quote is missing is harmless. *)
Theorem detector_raises_on_zero_price (cfg : Config) (b : Bot) :
  (forall x, find_opportunity cfg b = Raise x -> x = ZeroDivisionError) /\
  (find_opportunity cfg b = Raise ZeroDivisionError <->
   exists c o1 o2, In c combos /\ pairing_odds (quotes b) c = Some (o1, o2) /\
                   (o1 == 0 \/ o2 == 0)).
Proof.
  assert (Hzd : forall x, find_opportunity cfg b = Raise x -> x = ZeroDivisionError).
  { intros x H. unfold find_opportunity, find_opportunity_in in H.
    destruct (find_loop (quotes b) combos None 0) as [[best e]|y] eqn:E.
    - cbn in H. destruct best; [destruct (Qle_bool _ _)|]; discriminate.
    - cbn in H. injection H as <-. eapply find_loop_raises, E. }
  split; [exact Hzd|]. split.
  - intros Hx.
    destruct (pairings_pricedb (quotes b) combos) eqn:Hb.
    + exfalso. apply pairings_pricedb_sound in Hb.
      unfold find_opportunity in Hx.
      destruct (find_opportunity_in_spec cfg combos (quotes b) Hb)
        as [[H _]|(c & o & H & _)]; congruence.
    + apply pairings_pricedb_false, Hb.
  - intros (c & o1 & o2 & Hin & Ho & Hz).
    destruct (find_opportunity cfg b) as [r|x] eqn:E.
    + exfalso. unfold find_opportunity, find_opportunity_in in E.
      destruct (find_loop (quotes b) combos None 0) as [res|y] eqn:El; [|discriminate].
      destruct (find_loop_ok_priced _ _ _ _ _ El c o1 o2 Hin Ho) as [H1 H2].
      destruct Hz; contradiction.
    + now rewrite (Hzd x eq_refl).
Qed.

(** ** What a shock publishes *)

Lemma one_minus_inv_zero (x : Q) : ~ x == 0 -> (1 - 1 / x == 0 <-> x == 1).
Proof.
  intros Hx.
  assert (E : x * (1 - 1 / x) == x - 1) by (field; exact Hx).
  split; intros H.
  - rewrite H in E. lra.
  - assert (Hm : x * (1 - 1 / x) == 0) by (rewrite E; lra).
    apply Qmult_integral in Hm as [Hm|Hm]; [contradiction|exact Hm].
Qed.

(** X21: a shock raises ([ZeroDivisionError]) exactly on a drawn
    favourite price of 0 or 1; otherwise each of its two immediate
    batches carries both sides of one book (BookA first, then BookB),
    never one side alone, and every quote carries the feed's event, the
    clock reading of the shock and a price of at least 1.05; the same
    holds for the caught-up batch. *)
Theorem shock_batches_two_sided (f : ShockFeed) (d : ShockDraws) (ts : Z) :
  (emit_shock_begin f d ts = Raise ZeroDivisionError <->
   fav_dec d == 0 \/ fav_dec d == 1) /\
  (forall f' bA bB,
      emit_shock_begin f d ts = Ok (f', bA, bB) ->
      map quote_key bA = [("BookA", "A"); ("BookA", "B")]%string /\
      map quote_key bB = [("BookB", "A"); ("BookB", "B")]%string /\
      Forall (fun q => 1.05 <= decimal q /\ event_id q = feed_event_id f /\ ts_ms q = ts)
             (bA ++ bB) /\
      forall mA mB ts2,
        map quote_key (emit_shock_end f' mA mB ts2)
        = [("BookB", "A"); ("BookB", "B")]%string /\
        Forall (fun q => 1.05 <= decimal q /\ event_id q = feed_event_id f /\ ts_ms q = ts2)
               (emit_shock_end f' mA mB ts2)).
Proof.
  unfold emit_shock_begin, fdiv.
  destruct (Qeq_bool (fav_dec d) 0) eqn:E0; cbn [rbind].
  { apply Qeq_bool_iff in E0. split; [|intros ? ? ? [=]].
    split; [intros _; now left|reflexivity]. }
  assert (Hnz : ~ fav_dec d == 0) by (intros H; apply Qeq_bool_iff in H; congruence).
  destruct (Qeq_bool (1 - 1 / fav_dec d) 0) eqn:E1; cbn [rbind].
  { apply Qeq_bool_iff in E1. split; [|intros ? ? ? [=]].
    split; [intros _; right; apply (one_minus_inv_zero _ Hnz), E1|reflexivity]. }
  assert (Hd : ~ 1 - 1 / fav_dec d == 0) by (intros H; apply Qeq_bool_iff in H; congruence).
  split.
  - split; [discriminate|].
    intros [H|H]; [contradiction|]. apply (one_minus_inv_zero _ Hnz) in H. contradiction.
  - intros f' bA bB [= <- <- <-].
    destruct (fav_is_A d); cbn;
      repeat split; repeat constructor; cbn; auto using floor_price_ge.
Qed.

(** ** From a detected opportunity to a trade *)

Lemma place_resolve_accept nm ev sd stk odds u now :
  is_book nm ->
  exists t p,
    BOOK_REJECT_PROB nm = Ok p /\
    place_resolve nm ev sd stk odds u now = Ok t /\
    accepted t = negb (Qltb u p).
Proof.
  intros [->| ->]; unfold place_resolve; cbn;
    match goal with |- context [Qltb ?a ?b] => destruct (Qltb a b) eqn:E end;
    eexists _, _; (split; [reflexivity|]); (split; [reflexivity|]); cbn; now rewrite ?E.
Qed.

Lemma try_trade_leg1_accept cfg P b i l u now :
  locals_ok cfg P l ->
  exists t1 p,
    BOOK_REJECT_PROB (l_bA l) = Ok p /\
    accepted t1 = negb (Qltb u p) /\
    try_trade_leg1 b i l u now
    = (b, AwaitLeg2 l t1, [PlaceResolve i LegA (accepted t1); PlaceBegin i LegB]).
Proof.
  intros Hl. unfold try_trade_leg1.
  rewrite (books_ok _ (lk_bA _ _ _ Hl)). cbn [rbind].
  destruct (place_resolve_accept (l_bA l) (l_event_id l) "A" (l_SA l) (l_oA l) u now
              (lk_bA _ _ _ Hl)) as (t1 & p & Hp & -> & Hacc).
  rewrite (call_place_ok _ (lk_bB _ _ _ Hl)).
  exists t1, p. split; [exact Hp|]. split; [exact Hacc|reflexivity].
Qed.

Lemma try_trade_leg2_accept cfg P b i l t1 u now now' :
  locals_ok cfg P l ->
  exists t2 p,
    BOOK_REJECT_PROB (l_bB l) = Ok p /\
    accepted t2 = negb (Qltb u p) /\
    try_trade_leg2 b i l t1 u now now'
    = if accepted t1 && accepted t2
      then (append_trade (set_open b (open_trades b - 1)) (trade_of l now'), Returned,
            [PlaceResolve i LegB (accepted t2); Closed i; Appended i])
      else (set_open b (open_trades b - 1), Returned,
            [PlaceResolve i LegB (accepted t2); Closed i]).
Proof.
  intros Hl. unfold try_trade_leg2.
  rewrite (books_ok _ (lk_bB _ _ _ Hl)). cbn [rbind].
  destruct (place_resolve_accept (l_bB l) (l_event_id l) "B" (l_SB l) (l_oB l) u now
              (lk_bB _ _ _ Hl)) as (t2 & p & Hp & -> & Hacc).
  exists t2, p. split; [exact Hp|]. split; [exact Hacc|].
  destruct (accepted t1 && accepted t2); reflexivity.
Qed.

(** The call of [try_trade] on a free slot and a reported opportunity. *)
Lemma try_trade_start_found cfg b i ev bA bB o_A o_B :
  (open_trades b < MAX_CONCURRENT cfg)%Z ->
  find_opportunity cfg b = Ok (Some (bA, bB, o_A, o_B)) ->
  ~ o_A + o_B == 0 ->
  ~ TOTAL_OUTLAY cfg == 0 ->
  exists l,
    try_trade_start cfg b i ev
    = (set_open b (open_trades b + 1), AwaitLeg1 l, [Opened i; PlaceBegin i LegA]) /\
    locals_ok cfg (fun _ => True) l /\
    l_event_id l = ev /\ l_bA l = bA /\ l_bB l = bB /\ l_oA l = o_A /\ l_oB l = o_B.
Proof.
  intros Hcap Hfind Hsum HT.
  destruct (try_trade_start_cases cfg (fun _ => True) b i ev (store_ok_any b))
    as [[_ [H|H]]|[[e He]|(l & Hl & _ & Hok & Hev)]].
  - lia.
  - congruence.
  - exfalso. unfold try_trade_start in He.
    assert (Hc : (MAX_CONCURRENT cfg <=? open_trades b)%Z = false) by (apply Z.leb_gt; lia).
    rewrite Hc, Hfind, (solve_equalized_stakes_ok _ _ _ Hsum) in He.
    rewrite (fdiv_ok _ _ HT) in He.
    destruct (call_place bA); discriminate He.
  - exists l. split; [exact Hl|]. split; [exact Hok|]. split; [exact Hev|].
    unfold try_trade_start in Hl.
    assert (Hc : (MAX_CONCURRENT cfg <=? open_trades b)%Z = false) by (apply Z.leb_gt; lia).
    rewrite Hc, Hfind, (solve_equalized_stakes_ok _ _ _ Hsum) in Hl.
    rewrite (fdiv_ok _ _ HT) in Hl.
    destruct (call_place bA); [|discriminate Hl].
    injection Hl as <-. cbn. auto.
Qed.

(** X22: from detection to the ledger.  When a call of [try_trade]
    finds a free slot and the detector reports [(bA, bB, oA, oB)], the
    attempt appends a trade exactly when both venues' draws clear their
    rejection probabilities; the trade then carries the books and prices
    seen at detection, whatever quotes the feed publishes during the two
    waits; and if either draw falls below its venue's rejection
    probability the ledger is unchanged. *)
Theorem attempt_outcome (cfg : Config) (b : Bot) (ev : string)
    (pubs1 : list (list Quote)) (u1 : Q) (now1 : Z)
    (pubs2 : list (list Quote)) (u2 : Q) (now2 now2' : Z)
    (bA bB : string) (o_A o_B : Q) :
  (open_trades b < MAX_CONCURRENT cfg)%Z ->
  find_opportunity cfg b = Ok (Some (bA, bB, o_A, o_B)) ->
  ~ o_A + o_B == 0 ->
  ~ TOTAL_OUTLAY cfg == 0 ->
  let r := attempt cfg b ev pubs1 u1 now1 pubs2 u2 now2 now2' in
  exists pA pB,
    BOOK_REJECT_PROB bA = Ok pA /\ BOOK_REJECT_PROB bB = Ok pB /\
    (pA <= u1 -> pB <= u2 ->
     exists tr, trades (bot r.1) = trades b ++ [tr] /\
                trade_event_id tr = ev /\ A_book tr = bA /\ B_book tr = bB /\
                oA tr = o_A /\ oB tr = o_B /\ trade_ts_ms tr = now2') /\
    (u1 < pA \/ u2 < pB -> trades (bot r.1) = trades b).
Proof.
  intros Hcap Hfind Hsum HT r. subst r.
  unfold attempt, attempt_events. rewrite run_cons.
  rewrite run_app, run_publish, run_cons, run_app, run_publish. cbn [fst snd app].
  cbn [step tasks bot length app].
  destruct (try_trade_start_found cfg b 0 ev bA bB o_A o_B Hcap Hfind Hsum HT)
    as (l & -> & Hl & Hev & HbA & HbB & HoA & HoB). cbn.
  destruct (try_trade_leg1_accept cfg _
              (publish_all (set_open b (open_trades b + 1)) pubs1) 0 l u1 now1 Hl)
    as (t1 & pA & HpA & Hacc1 & ->). cbn.
  match goal with |- context [try_trade_leg2 ?b0 0 l t1 u2 now2 now2'] =>
    destruct (try_trade_leg2_accept cfg _ b0 0 l t1 u2 now2 now2' Hl)
      as (t2 & pB & HpB & Hacc2 & ->) end.
  rewrite HbA in HpA. rewrite HbB in HpB.
  exists pA, pB. split; [exact HpA|]. split; [exact HpB|]. split.
  - intros H1 H2.
    apply Qltb_ge in H1, H2. rewrite H1 in Hacc1. rewrite H2 in Hacc2.
    rewrite Hacc1, Hacc2. cbn.
    rewrite !publish_all_trades. cbn [set_open trades].
    exists (trade_of l now2'). split; [reflexivity|]. cbn.
    rewrite Hev, HbA, HbB, HoA, HoB. auto 10.
  - intros H.
    assert (Hrej : accepted t1 && accepted t2 = false).
    { rewrite Hacc1, Hacc2. destruct H as [H|H]; apply Qltb_lt in H; rewrite H; cbn.
      - reflexivity.
      - apply andb_false_r. }
    rewrite Hrej. cbn. rewrite !publish_all_trades. reflexivity.
Qed.

Lemma attempt_outcome_witness :
  let r := attempt default_config wide_edge_bot "EVT1"
             [[quote_at "BookB" "B" 1.10]] 0.5 100 [] 0.5 200 201 in
  exists pA pB,
    BOOK_REJECT_PROB "BookA" = Ok pA /\ BOOK_REJECT_PROB "BookB" = Ok pB /\
    (pA <= 0.5 -> pB <= 0.5 ->
     exists tr, trades (bot r.1) = trades wide_edge_bot ++ [tr] /\
                trade_event_id tr = "EVT1"%string /\
                A_book tr = "BookA"%string /\ B_book tr = "BookB"%string /\
                oA tr = 2.00 /\ oB tr = 2.05 /\ trade_ts_ms tr = 201%Z) /\
    (0.5 < pA \/ 0.5 < pB -> trades (bot r.1) = trades wide_edge_bot).
Proof.
  apply (attempt_outcome default_config wide_edge_bot "EVT1"
           [[quote_at "BookB" "B" 1.10]] 0.5 100 [] 0.5 200 201
           "BookA" "BookB" 2.00 2.05).
  - vm_compute. reflexivity.
  - vm_compute. reflexivity.
  - vm_compute. discriminate.
  - vm_compute. discriminate.
Defined.

(** * The detector in binary64 arithmetic *)

(** ** The order of IEEE 754 comparisons *)

Lemma compare_cont_Eq (p q : positive) : PosDef.Pos.compare_cont Eq p q = Pos.compare p q.
Proof. reflexivity. Qed.

Ltac sf_order :=
  repeat match goal with
         | H : context [PosDef.Pos.compare_cont Eq ?p ?q] |- _ =>
             rewrite (compare_cont_Eq p q) in H
         | |- context [PosDef.Pos.compare_cont Eq ?p ?q] =>
             rewrite (compare_cont_Eq p q)
         end;
  repeat match goal with
         | H : context [(?a ?= ?b)%Z] |- _ => destruct (Z.compare_spec a b); cbn in H
         | H : context [(?a ?= ?b)%positive] |- _ => destruct (Pos.compare_spec a b); cbn in H
         | |- context [(?a ?= ?b)%Z] => destruct (Z.compare_spec a b); cbn
         | |- context [(?a ?= ?b)%positive] => destruct (Pos.compare_spec a b); cbn
         end;
  try discriminate; try reflexivity; try (exfalso; lia); try congruence.

Lemma SFcompare_antisym (a b : spec_float) (c : comparison) :
  SFcompare a b = Some c -> SFcompare b a = Some (CompOpp c).
Proof.
  destruct a as [sa|sa| |sa ma ea], b as [sb|sb| |sb mb eb]; cbn;
    try destruct sa; try destruct sb; cbn; intros H;
    try discriminate; try (injection H as <-; reflexivity).
  - injection H as <-. sf_order.
  - injection H as <-. sf_order.
Qed.

Lemma SFcompare_trans (a b c : spec_float) (x y : comparison) :
  SFcompare a b = Some x -> SFcompare b c = Some y ->
  (x = Eq -> SFcompare a c = Some y) /\
  (y = Eq -> SFcompare a c = Some x) /\
  (x = y -> SFcompare a c = Some x).
Proof.
  destruct a as [sa|sa| |sa ma ea], b as [sb|sb| |sb mb eb], c as [sc|sc| |sc mc ec]; cbn;
    try destruct sa; try destruct sb; try destruct sc; cbn; intros H1 H2;
    try discriminate;
    injection H1 as <-; injection H2 as <-;
    (repeat split; intros E; try discriminate E; try reflexivity; revert E; sf_order).
Qed.

(** Two numbers that each compare with something compare with each other
    (neither is a NaN). *)
Lemma SFcompare_defined (z a w b : spec_float) (x y : comparison) :
  SFcompare z a = Some x -> SFcompare w b = Some y -> exists c, SFcompare a b = Some c.
Proof.
  destruct z, a, w, b; cbn; intros H1 H2; try discriminate; eauto.
Qed.

Section FloatOrder.
Local Open Scope float_scope.

Lemma b64_ltb_fcmp (x y : float) : (x <? y) = true <-> Binary64.fcmp x y = Some Lt.
Proof.
  rewrite FloatAxioms.ltb_spec. unfold SFltb, Binary64.fcmp.
  destruct (SFcompare _ _) as [[ | | ]|]; split; congruence.
Qed.

Lemma b64_leb_fcmp (x y : float) :
  (x <=? y) = true <-> Binary64.fcmp x y = Some Lt \/ Binary64.fcmp x y = Some Eq.
Proof.
  rewrite FloatAxioms.leb_spec. unfold SFleb, Binary64.fcmp.
  destruct (SFcompare _ _) as [[ | | ]|]; split; intros; try tauto; try congruence;
    destruct H; congruence.
Qed.

Lemma b64_eqb_fcmp (x y : float) : (x =? y) = true <-> Binary64.fcmp x y = Some Eq.
Proof.
  rewrite FloatAxioms.eqb_spec. unfold SFeqb, Binary64.fcmp.
  destruct (SFcompare _ _) as [[ | | ]|]; split; congruence.
Qed.

Lemma b64_ltb_irrefl (x : float) : (x <? x) = false.
Proof.
  apply not_true_iff_false. rewrite b64_ltb_fcmp. intros H.
  pose proof (SFcompare_antisym _ _ _ H) as H'. unfold Binary64.fcmp in H.
  rewrite H in H'. discriminate.
Qed.

Lemma b64_ltb_trans (x y z : float) : (x <? y) = true -> (y <? z) = true -> (x <? z) = true.
Proof.
  rewrite !b64_ltb_fcmp. intros H1 H2.
  destruct (SFcompare_trans _ _ _ _ _ H1 H2) as (_ & _ & H). now apply H.
Qed.

Lemma b64_ltb_asym (x y : float) : (x <? y) = true -> (y <? x) = false.
Proof.
  intros H. apply not_true_iff_false. intros H'.
  pose proof (b64_ltb_trans _ _ _ H H') as Hxx. rewrite b64_ltb_irrefl in Hxx. discriminate.
Qed.

(** [a < b] and [c == b] give [a < c]. *)
Lemma b64_ltb_eqb_r (a b c : float) : (a <? b) = true -> (c =? b) = true -> (a <? c) = true.
Proof.
  rewrite !b64_ltb_fcmp, b64_eqb_fcmp. intros H1 H2.
  apply SFcompare_antisym in H2. cbn in H2.
  destruct (SFcompare_trans _ _ _ _ _ H1 H2) as (_ & H & _). now apply H.
Qed.

Lemma b64_leb_not_ltb_eqb (a b : float) :
  (a <=? b) = true -> (a <? b) = false -> (a =? b) = true.
Proof.
  rewrite b64_leb_fcmp, b64_eqb_fcmp. intros [H|H] Hn; [|exact H].
  apply b64_ltb_fcmp in H. congruence.
Qed.

Lemma b64_eqb_leb_sym (a b : float) : (a =? b) = true -> (b <=? a) = true.
Proof.
  rewrite b64_eqb_fcmp, b64_leb_fcmp. intros H. right. apply (SFcompare_antisym _ _ _ H).
Qed.

Lemma b64_ltb_not_leb (a b : float) : (a <? b) = true -> (b <=? a) = false.
Proof.
  rewrite b64_ltb_fcmp. intros H. apply not_true_iff_false. rewrite b64_leb_fcmp.
  apply SFcompare_antisym in H. cbn in H. unfold Binary64.fcmp. rewrite H.
  intros [E|E]; discriminate.
Qed.

(** Between numbers that are not NaN (each is above something), [a < b]
    failing means [b <= a]. *)
Lemma b64_ltb_false_leb (z1 a z2 b : float) :
  (z1 <? a) = true -> (z2 <? b) = true -> (a <? b) = false -> (b <=? a) = true.
Proof.
  rewrite !b64_ltb_fcmp. intros H1 H2 Hn.
  destruct (SFcompare_defined _ _ _ _ _ _ H1 H2) as [c Hc].
  apply b64_leb_fcmp. pose proof (SFcompare_antisym _ _ _ Hc) as Hc'.
  destruct c; cbn in Hc'.
  - now right.
  - exfalso. apply not_true_iff_false in Hn. apply Hn, b64_ltb_fcmp, Hc.
  - now left.
Qed.

Lemma b64_leb_trans (x y z : float) : (x <=? y) = true -> (y <=? z) = true -> (x <=? z) = true.
Proof.
  rewrite !b64_leb_fcmp. intros [H1|H1] [H2|H2];
    destruct (SFcompare_trans _ _ _ _ _ H1 H2) as (Ha & Hb & Hc); auto.
Qed.

End FloatOrder.

(** ** The detector's loop in binary64 *)

Section Binary64Detector.
Local Open Scope float_scope.

Lemma b64_find_loop_incomplete qm c cs best e :
  Binary64.pairing_odds qm c = None ->
  Binary64.find_loop qm (c :: cs) best e = Binary64.find_loop qm cs best e.
Proof.
  destruct c as [[b1 s1] [b2 s2]]. unfold Binary64.pairing_odds. cbn.
  destruct (qm !! (b1, s1)); [|reflexivity].
  destruct (qm !! (b2, s2)); [discriminate|reflexivity].
Qed.

Lemma b64_find_loop_complete qm b1 s1 b2 s2 cs best e o1 o2 :
  Binary64.pairing_odds qm ((b1, s1), (b2, s2)) = Some (o1, o2) ->
  (o1 =? 0) = false -> (o2 =? 0) = false ->
  Binary64.find_loop qm (((b1, s1), (b2, s2)) :: cs) best e =
    if (e <? Binary64.edge_of o1 o2)
    then Binary64.find_loop qm cs (Some (b1, b2, o1, o2)) (Binary64.edge_of o1 o2)
    else Binary64.find_loop qm cs best e.
Proof.
  unfold Binary64.pairing_odds. cbn.
  destruct (qm !! (b1, s1)) as [q1|]; [|discriminate].
  destruct (qm !! (b2, s2)) as [q2|]; [|discriminate].
  intros [= <- <-] H1 H2.
  unfold Binary64.imp_prob_from_dec, Binary64.fdiv. rewrite H1, H2. reflexivity.
Qed.

Lemma b64_pairings_priced_tail qm c cs :
  Binary64.pairings_priced qm (c :: cs) -> Binary64.pairings_priced qm cs.
Proof.
  intros H c' o1 o2 Hin. apply H. now right.
Qed.

(** The loop invariant, in the program's comparisons: the loop does not
    raise on priced pairings, no pairing seen has a computed edge above
    [best_edge], and [best] is untouched or the pairing that set
    [best_edge]. *)
Lemma b64_find_loop_spec qm cs :
  Binary64.pairings_priced qm cs ->
  forall best e,
  exists best' e',
    Binary64.find_loop qm cs best e = Ok (best', e') /\
    (forall c o1 o2, In c cs -> Binary64.pairing_odds qm c = Some (o1, o2) ->
                     (e' <? Binary64.edge_of o1 o2) = false) /\
    ((best' = best /\ e' = e) \/
     (exists c o, In c cs /\ Binary64.opp_from qm c o /\ best' = Some o /\
                  e' = Binary64.opp_edge o /\ (e <? e') = true)).
Proof.
  induction cs as [|c cs IH]; intros Hp best e.
  - exists best, e. split; [reflexivity|]. split; [intros ? ? ? []|now left].
  - specialize (IH (b64_pairings_priced_tail _ _ _ Hp)).
    destruct (Binary64.pairing_odds qm c) as [[o1 o2]|] eqn:Hc.
    + destruct (Hp c o1 o2 (or_introl eq_refl) Hc) as [Hz1 Hz2].
      destruct c as [[b1 s1] [b2 s2]].
      rewrite (b64_find_loop_complete _ _ _ _ _ _ _ _ _ _ Hc Hz1 Hz2).
      destruct (e <? Binary64.edge_of o1 o2) eqn:Hlt.
      * destruct (IH (Some (b1, b2, o1, o2)) (Binary64.edge_of o1 o2))
          as (best' & e' & Hrun & Hmax & Hwho).
        exists best', e'. split; [exact Hrun|]. split.
        { intros c' p1 p2 [<-|Hin] Hc'; [|eapply Hmax; eassumption].
          rewrite Hc in Hc'. injection Hc' as <- <-.
          destruct Hwho as [[_ ->]|(_ & _ & _ & _ & _ & _ & Hup)].
          - apply b64_ltb_irrefl.
          - apply b64_ltb_asym, Hup. }
        right. destruct Hwho as [[-> ->]|(c' & o & Hin & Hfrom & -> & -> & Hup)].
        { exists ((b1, s1), (b2, s2)), (b1, b2, o1, o2).
          split; [now left|]. split; [split; [exact Hc|split; reflexivity]|].
          split; [reflexivity|]. split; [reflexivity|exact Hlt]. }
        { exists c', o. split; [now right|]. split; [exact Hfrom|].
          split; [reflexivity|]. split; [reflexivity|].
          eapply b64_ltb_trans; eassumption. }
      * destruct (IH best e) as (best' & e' & Hrun & Hmax & Hwho).
        exists best', e'. split; [exact Hrun|]. split.
        { intros c' p1 p2 [<-|Hin] Hc'; [|eapply Hmax; eassumption].
          rewrite Hc in Hc'. injection Hc' as <- <-.
          destruct Hwho as [[_ ->]|(_ & _ & _ & _ & _ & _ & Hup)]; [exact Hlt|].
          apply not_true_iff_false. intros Habove.
          pose proof (b64_ltb_trans _ _ _ Hup Habove). congruence. }
        destruct Hwho as [?|(c' & o & Hin & Hfrom & -> & -> & Hup)]; [now left|].
        right. exists c', o. split; [now right|]. split; [exact Hfrom|].
        split; [reflexivity|]. split; [reflexivity|exact Hup].
    + rewrite (b64_find_loop_incomplete _ _ _ _ _ Hc).
      destruct (IH best e) as (best' & e' & Hrun & Hmax & Hwho).
      exists best', e'. split; [exact Hrun|]. split.
      { intros c' p1 p2 [<-|Hin] Hc'; [congruence|]. eapply Hmax; eassumption. }
      destruct Hwho as [?|(c' & o & Hin & Hfrom & -> & -> & Hup)]; [now left|].
      right. exists c', o. split; [now right|]. split; [exact Hfrom|].
      split; [reflexivity|]. split; [reflexivity|exact Hup].
Qed.

(** What the detector answers on priced pairings, in the program's
    comparisons. *)
Lemma b64_find_opportunity_spec min_edge qm :
  Binary64.pairings_priced qm combos ->
  (Binary64.find_opportunity min_edge qm = Ok None /\
   ((forall c o1 o2, In c combos -> Binary64.pairing_odds qm c = Some (o1, o2) ->
                     (0 <? Binary64.edge_of o1 o2) = false) \/
    (exists c o, In c combos /\ Binary64.opp_from qm c o /\
                 (0 <? Binary64.opp_edge o) = true /\
                 (min_edge <=? Binary64.opp_edge o) = false /\
                 forall c' o1 o2, In c' combos -> Binary64.pairing_odds qm c' = Some (o1, o2) ->
                                  (Binary64.opp_edge o <? Binary64.edge_of o1 o2) = false))) \/
  (exists c o,
     Binary64.find_opportunity min_edge qm = Ok (Some o) /\
     In c combos /\ Binary64.opp_from qm c o /\
     (0 <? Binary64.opp_edge o) = true /\
     (min_edge <=? Binary64.opp_edge o) = true /\
     forall c' o1 o2, In c' combos -> Binary64.pairing_odds qm c' = Some (o1, o2) ->
                      (Binary64.opp_edge o <? Binary64.edge_of o1 o2) = false).
Proof.
  intros Hp.
  destruct (b64_find_loop_spec qm combos Hp None 0) as (best' & e' & Hrun & Hmax & Hwho).
  unfold Binary64.find_opportunity. rewrite Hrun. cbn [rbind].
  destruct Hwho as [[-> ->]|(c & o & Hin & Hfrom & -> & -> & Hpos)].
  - left. split; [reflexivity|]. left. exact Hmax.
  - destruct (min_edge <=? Binary64.opp_edge o) eqn:Hmin.
    + right. exists c, o.
      split; [reflexivity|]. split; [exact Hin|]. split; [exact Hfrom|].
      split; [exact Hpos|]. split; [exact Hmin|exact Hmax].
    + left. split; [reflexivity|]. right. exists c, o.
      split; [exact Hin|]. split; [exact Hfrom|]. split; [exact Hpos|].
      split; [exact Hmin|exact Hmax].
Qed.

End Binary64Detector.

(** ** What the detector reports, in the program's arithmetic *)

Section Binary64Claims.
Local Open Scope float_scope.

Lemma b64_priced_sound qm cs :
  forallb (fun c => match Binary64.pairing_odds qm c with
                    | Some (o1, o2) => negb (o1 =? 0) && negb (o2 =? 0)
                    | None => true
                    end) cs = true ->
  Binary64.pairings_priced qm cs.
Proof.
  rewrite forallb_forall.
  intros H c o1 o2 Hin Hc. specialize (H c Hin). rewrite Hc in H.
  apply andb_true_iff in H as [H1 H2].
  apply negb_true_iff in H1, H2. now split.
Qed.

(** C5, amended: the edge is the number the program computes,
    [1.0 - (1.0/o1 + 1.0/o2)] in binary64.  On a store whose complete
    pairings carry no zero price, a cross-venue pair whose computed edge
    is positive and at least the threshold makes the detector report an
    opportunity: a complete pairing whose computed edge no complete
    pairing's exceeds, so at least that pair's; when no complete pair has
    a positive computed edge nothing is reported; and whatever is
    reported has a positive computed edge of at least the threshold. *)
Theorem detector_reports_greatest_computed_edge (min_edge : float)
    (qm : gmap (string * string) Binary64.Quote) :
  Binary64.pairings_priced qm combos ->
  (forall c o1 o2,
      In c combos -> Binary64.pairing_odds qm c = Some (o1, o2) ->
      (0 <? Binary64.edge_of o1 o2) = true ->
      (min_edge <=? Binary64.edge_of o1 o2) = true ->
      exists c' o,
        Binary64.find_opportunity min_edge qm = Ok (Some o) /\
        In c' combos /\ Binary64.opp_from qm c' o /\
        (Binary64.edge_of o1 o2 <=? Binary64.opp_edge o) = true /\
        (forall c'' p1 p2, In c'' combos -> Binary64.pairing_odds qm c'' = Some (p1, p2) ->
           (Binary64.opp_edge o <? Binary64.edge_of p1 p2) = false)) /\
  ((forall c o1 o2,
      In c combos -> Binary64.pairing_odds qm c = Some (o1, o2) ->
      (0 <? Binary64.edge_of o1 o2) = false) ->
   Binary64.find_opportunity min_edge qm = Ok None) /\
  (forall o,
      Binary64.find_opportunity min_edge qm = Ok (Some o) ->
      (0 <? Binary64.opp_edge o) = true /\ (min_edge <=? Binary64.opp_edge o) = true).
Proof.
  intros Hp.
  destruct (b64_find_opportunity_spec min_edge qm Hp)
    as [[Hnone Hwhy]|(c' & o & Hsome & Hin & Hfrom & Hpos & Hmin & Hmax)].
  - rewrite Hnone. split; [|split].
    + intros c o1 o2 Hc Ho Hedge Hthr. exfalso.
      destruct Hwhy as [Hle|(c' & o & Hin & Hfrom & Hpos & Hlow & Hmax)].
      * specialize (Hle c o1 o2 Hc Ho). congruence.
      * specialize (Hmax c o1 o2 Hc Ho).
        pose proof (b64_ltb_false_leb _ _ _ _ Hpos Hedge Hmax) as Hge.
        pose proof (b64_leb_trans _ _ _ Hthr Hge). congruence.
    + reflexivity.
    + intros o [=].
  - rewrite Hsome. split; [|split].
    + intros c o1 o2 Hc Ho Hedge Hthr. exists c', o.
      split; [reflexivity|]. split; [exact Hin|]. split; [exact Hfrom|].
      split; [|exact Hmax].
      apply (b64_ltb_false_leb _ _ _ _ Hpos Hedge). apply (Hmax c o1 o2 Hc Ho).
    + intros Hall. exfalso. destruct Hfrom as (Ho & _).
      specialize (Hall c' _ _ Hin Ho). unfold Binary64.opp_edge in Hpos. congruence.
    + intros o' [= <-]. split; assumption.
Qed.

Lemma wide_edge_store_priced : Binary64.pairings_priced Binary64.wide_edge_store combos.
Proof. apply b64_priced_sound. vm_compute. reflexivity. Qed.

Lemma detector_reports_greatest_computed_edge_witness :
  exists c' o,
    Binary64.find_opportunity Binary64.MIN_ARBITRAGE_EDGE Binary64.wide_edge_store
    = Ok (Some o) /\
    In c' combos /\ Binary64.opp_from Binary64.wide_edge_store c' o /\
    (Binary64.edge_of 2 0x1.0666666666666p+1 <=? Binary64.opp_edge o) = true /\
    (forall c'' p1 p2, In c'' combos ->
       Binary64.pairing_odds Binary64.wide_edge_store c'' = Some (p1, p2) ->
       (Binary64.opp_edge o <? Binary64.edge_of p1 p2) = false).
Proof.
  apply (proj1 (detector_reports_greatest_computed_edge Binary64.MIN_ARBITRAGE_EDGE
                  Binary64.wide_edge_store wide_edge_store_priced)
           (("BookA", "A"), ("BookB", "B"))%string 2 0x1.0666666666666p+1).
  - left. reflexivity.
  - vm_compute. reflexivity.
  - vm_compute. reflexivity.
  - vm_compute. reflexivity.
Defined.

(** The program's answers where rounding decides: a pair whose exact
    edge is under 1/200 is reported, a pair whose exact edge is over it
    is not, and the thin pair of the counterexample is not. *)
Example detector_on_rounded_edges :
  Binary64.find_opportunity Binary64.MIN_ARBITRAGE_EDGE Binary64.rounded_up_store
  = Ok (Some ("BookA", "BookB", 0x1.8p+0, 0x1.85d903e602995p+1)%string) /\
  Binary64.find_opportunity Binary64.MIN_ARBITRAGE_EDGE Binary64.rounded_down_store = Ok None /\
  Binary64.find_opportunity Binary64.MIN_ARBITRAGE_EDGE Binary64.thin_edge_store = Ok None.
Proof. repeat split; vm_compute; reflexivity. Qed.

(** C6: the threshold comparison is inclusive, on the edge the program
    computes.  On a store whose complete pairings carry no zero price,
    with a positive threshold: when some complete pairing's computed
    edge equals the threshold and none exceeds it, an opportunity (of
    that edge) is reported; when every complete pairing's computed edge
    is strictly below the threshold, none is. *)
Theorem threshold_comparison_inclusive (min_edge : float)
    (qm : gmap (string * string) Binary64.Quote) :
  Binary64.pairings_priced qm combos ->
  (0 <? min_edge) = true ->
  ((exists c o1 o2, In c combos /\ Binary64.pairing_odds qm c = Some (o1, o2) /\
                    (Binary64.edge_of o1 o2 =? min_edge) = true) ->
   (forall c o1 o2, In c combos -> Binary64.pairing_odds qm c = Some (o1, o2) ->
                    (Binary64.edge_of o1 o2 <=? min_edge) = true) ->
   exists o, Binary64.find_opportunity min_edge qm = Ok (Some o) /\
             (Binary64.opp_edge o =? min_edge) = true) /\
  ((forall c o1 o2, In c combos -> Binary64.pairing_odds qm c = Some (o1, o2) ->
                    (Binary64.edge_of o1 o2 <? min_edge) = true) ->
   Binary64.find_opportunity min_edge qm = Ok None).
Proof.
  intros Hp Hthr.
  destruct (b64_find_opportunity_spec min_edge qm Hp)
    as [[Hnone Hwhy]|(c' & o & Hsome & Hin & (Ho' & Hfrom) & Hpos & Hmin & Hmax)].
  - rewrite Hnone. split; [|reflexivity].
    intros (c & o1 & o2 & Hc & Ho & Heq) Hub. exfalso.
    pose proof (b64_ltb_eqb_r _ _ _ Hthr Heq) as Hedge.
    destruct Hwhy as [Hle|(c' & o & Hin & (Ho' & _) & Hpos & Hlow & Hmax)].
    + specialize (Hle c o1 o2 Hc Ho). congruence.
    + specialize (Hmax c o1 o2 Hc Ho).
      pose proof (Hub c' _ _ Hin Ho') as Hle. fold (Binary64.opp_edge o) in Hle.
      destruct (Binary64.opp_edge o <? min_edge) eqn:Hlt.
      * pose proof (b64_ltb_eqb_r _ _ _ Hlt Heq). congruence.
      * pose proof (b64_leb_not_ltb_eqb _ _ Hle Hlt) as Heq'.
        pose proof (b64_eqb_leb_sym _ _ Heq'). congruence.
  - rewrite Hsome. split.
    + intros (c & o1 & o2 & Hc & Ho & Heq) Hub. exists o. split; [reflexivity|].
      pose proof (Hub c' _ _ Hin Ho') as Hle. fold (Binary64.opp_edge o) in Hle.
      apply (b64_leb_not_ltb_eqb _ _ Hle).
      apply not_true_iff_false. intros Hlt.
      pose proof (b64_ltb_not_leb _ _ Hlt). congruence.
    + intros Hbelow. exfalso.
      pose proof (Hbelow c' _ _ Hin Ho') as Hlt. fold (Binary64.opp_edge o) in Hlt.
      pose proof (b64_ltb_not_leb _ _ Hlt). congruence.
Qed.

Lemma half_edge_store_priced : Binary64.pairings_priced Binary64.half_edge_store combos.
Proof. apply b64_priced_sound. vm_compute. reflexivity. Qed.

Lemma threshold_comparison_inclusive_witness :
  exists o, Binary64.find_opportunity 0.5 Binary64.half_edge_store = Ok (Some o) /\
            (Binary64.opp_edge o =? 0.5) = true.
Proof.
  apply (proj1 (threshold_comparison_inclusive 0.5 Binary64.half_edge_store
                  half_edge_store_priced eq_refl)).
  - exists (("BookA", "A"), ("BookB", "B"))%string, 4, 4.
    split; [now left|]. split; vm_compute; reflexivity.
  - intros c o1 o2 [<-|[<-|[]]] Hc; vm_compute in Hc; [|discriminate].
    injection Hc as <- <-. vm_compute. reflexivity.
Defined.

(** X19: with both pairings complete and priced, the detector reports
    the second pairing (BookB for side A, BookA for side B) exactly when
    its computed edge is strictly greater than the first's; when it is
    not (in particular on equal computed edges) the first pairing is
    reported.  Edges are those the program computes in binary64. *)
Theorem detector_second_pairing_needs_greater_edge (min_edge : float)
    (qm : gmap (string * string) Binary64.Quote) (a1 a2 c1 c2 : float) :
  Binary64.pairing_odds qm (("BookA", "A"), ("BookB", "B"))%string = Some (a1, a2) ->
  Binary64.pairing_odds qm (("BookB", "A"), ("BookA", "B"))%string = Some (c1, c2) ->
  (a1 =? 0) = false -> (a2 =? 0) = false -> (c1 =? 0) = false -> (c2 =? 0) = false ->
  ((0 <? Binary64.edge_of a1 a2) = true ->
   (Binary64.edge_of a1 a2 <? Binary64.edge_of c1 c2) = false ->
   (min_edge <=? Binary64.edge_of a1 a2) = true ->
   Binary64.find_opportunity min_edge qm = Ok (Some ("BookA", "BookB", a1, a2)%string)) /\
  ((0 <? Binary64.edge_of c1 c2) = true ->
   (Binary64.edge_of a1 a2 <? Binary64.edge_of c1 c2) = true ->
   (min_edge <=? Binary64.edge_of c1 c2) = true ->
   Binary64.find_opportunity min_edge qm = Ok (Some ("BookB", "BookA", c1, c2)%string)).
Proof.
  intros P1 P2 Za1 Za2 Zc1 Zc2.
  unfold Binary64.find_opportunity, combos.
  rewrite (b64_find_loop_complete _ _ _ _ _ _ _ _ _ _ P1 Za1 Za2).
  split.
  - intros Hpos Hle Hmin. rewrite Hpos.
    rewrite (b64_find_loop_complete _ _ _ _ _ _ _ _ _ _ P2 Zc1 Zc2).
    rewrite Hle. cbn [Binary64.find_loop rbind]. now rewrite Hmin.
  - intros Hpos Hlt Hmin.
    destruct (0 <? Binary64.edge_of a1 a2) eqn:E1;
      rewrite (b64_find_loop_complete _ _ _ _ _ _ _ _ _ _ P2 Zc1 Zc2).
    + rewrite Hlt. cbn [Binary64.find_loop rbind]. now rewrite Hmin.
    + rewrite Hpos. cbn [Binary64.find_loop rbind]. now rewrite Hmin.
Qed.

Lemma detector_second_pairing_needs_greater_edge_witness :
  Binary64.find_opportunity Binary64.MIN_ARBITRAGE_EDGE Binary64.rounded_tie_store
  = Ok (Some ("BookB", "BookA", 3, 4)%string).
Proof.
  apply (proj2 (detector_second_pairing_needs_greater_edge Binary64.MIN_ARBITRAGE_EDGE
                  Binary64.rounded_tie_store 2 12 3 4
                  ltac:(vm_compute; reflexivity) ltac:(vm_compute; reflexivity)
                  eq_refl eq_refl eq_refl eq_refl));
    vm_compute; reflexivity.
Defined.

End Binary64Claims.
